(** * go-imports-group: classification, grouping, ordering and re-emission

    A shallow embedding of the import grouper: [pkg/formatter] (extractor,
    classifier, sorter, re-emitter, file and batch driver), the project-root
    resolver of [pkg/utils], and the parts of Go's [strings] and [sort]
    packages they rely on; then the properties of the engine proved over
    that embedding.

    Go strings are byte strings: they are modelled by [string] (lists of
    8-bit characters), [<] on strings by [String.ltb] (bytewise
    lexicographic), Go [int] by [Z], maps by [gmap], nil pointers by [None].
    The file system and standard output are an explicit [World] threaded
    through the driver.

    What the repository takes from elsewhere stays a parameter: the generated
    table behind [std.IsStandardPackage], and from the Go distribution
    [strings.TrimSpace], the [Text] method of comment groups,
    [parser.ParseFile] and [format.Node]. *)

From Stdlib Require Import ZArith Ascii String List.
From stdpp Require Import base option list sorting gmap strings pretty.

Open Scope string_scope.
Open Scope Z_scope.
Open Scope list_scope.

(** ** Package [strings] *)

Module GoStrings.

(** [strings.HasPrefix(s, prefix)]. *)
Definition HasPrefix (s prefix : string) : bool := String.prefix prefix s.

(** [s[n:]] for [n <= len(s)]. *)
Fixpoint sliceFrom (n : nat) (s : string) : string :=
  match n, s with
  | O, _ => s
  | S n', String _ s' => sliceFrom n' s'
  | S _, EmptyString => EmptyString
  end.

(** [strings.TrimPrefix(s, prefix)]: [s] without the leading [prefix],
    [s] itself when it does not start with [prefix]. *)
Definition TrimPrefix (s prefix : string) : string :=
  if HasPrefix s prefix then sliceFrom (String.length prefix) s else s.

Fixpoint in_cutset (c : ascii) (cutset : string) : bool :=
  match cutset with
  | EmptyString => false
  | String d rest => if Ascii.eqb c d then true else in_cutset c rest
  end.

(** [strings.TrimLeft(s, cutset)] for a cutset of one-byte characters. *)
Fixpoint TrimLeft (s cutset : string) : string :=
  match s with
  | EmptyString => EmptyString
  | String c s' => if in_cutset c cutset then TrimLeft s' cutset else s
  end.

(** [strings.TrimRight(s, cutset)]: the tail is trimmed first; the head goes
    too when nothing of the tail is left and the head is in the cutset. *)
Fixpoint TrimRight (s cutset : string) : string :=
  match s with
  | EmptyString => EmptyString
  | String c s' =>
      match TrimRight s' cutset with
      | EmptyString => if in_cutset c cutset then EmptyString else String c EmptyString
      | t => String c t
      end
  end.

(** [strings.Trim(s, cutset)]: all leading and trailing bytes of [cutset]
    removed. *)
Definition Trim (s cutset : string) : string :=
  TrimRight (TrimLeft s cutset) cutset.

(** [strings.Split(s, sep)] for a one-byte separator [sep]: the pieces of
    [s] between the occurrences of [sep]; never the empty list. *)
Fixpoint Split (s : string) (sep : ascii) : list string :=
  match s with
  | EmptyString => [EmptyString]
  | String c s' =>
      if Ascii.eqb c sep then EmptyString :: Split s' sep
      else match Split s' sep with
           | [] => [String c EmptyString]
           | seg :: segs => String c seg :: segs
           end
  end.

(** [strings.Split(s, sep)] for a separator of one byte or more.  Every
    step of the scan consumes a byte of [s], so [fuel] beyond the length of
    [s] is never used up. *)
Fixpoint SplitSep_scan (fuel : nat) (s sep : string) (piece : string) : list string :=
  match fuel with
  | O => [piece +:+ s]
  | S fuel =>
      match s with
      | EmptyString => [piece]
      | String c s' =>
          if HasPrefix s sep
          then piece :: SplitSep_scan fuel (sliceFrom (String.length sep) s) sep EmptyString
          else SplitSep_scan fuel s' sep (piece +:+ String c EmptyString)
      end
  end.

Definition SplitSep (s sep : string) : list string :=
  SplitSep_scan (S (String.length s)) s sep EmptyString.

(** [strings.Contains(s, substr)]. *)
Fixpoint Contains (s substr : string) : bool :=
  HasPrefix s substr
  || match s with
     | EmptyString => false
     | String _ s' => Contains s' substr
     end.

(** [strings.LastIndex(s, sep)] for a one-byte separator: the index of its
    last occurrence, -1 when there is none. *)
Fixpoint LastIndex (s : string) (sep : ascii) : Z :=
  match s with
  | EmptyString => -1
  | String c s' =>
      let later := LastIndex s' sep in
      if 0 <=? later then later + 1
      else if Ascii.eqb c sep then 0 else -1
  end.

(** [strings.HasSuffix(s, suffix)]: [s] is long enough and its last
    [len(suffix)] bytes are [suffix]. *)
Definition HasSuffix (s suffix : string) : bool :=
  (String.length suffix <=? String.length s)%nat
  && String.eqb (sliceFrom (String.length s - String.length suffix) s) suffix.

(** [strings.Join(elems, sep)]. *)
Definition Join (elems : list string) (sep : string) : string :=
  String.concat sep elems.

End GoStrings.

Import GoStrings.

(** ** Package [sort] *)

(** [sort.Slice(x, less)], as a left-to-right insertion sort: each element
    in turn moves left past the elements it is [less] than.  The library
    promises no stability; [sort_Slice_unique] below shows that on lists with
    distinct keys under a strict total order every sorting procedure returns
    this very list. *)
Section sort.
Context {A : Type} (less : A → A → bool).

Fixpoint insert_by (x : A) (l : list A) : list A :=
  match l with
  | [] => [x]
  | y :: l' => if less x y then x :: l else y :: insert_by x l'
  end.

Definition sort_Slice (l : list A) : list A :=
  foldl (λ sorted x, insert_by x sorted) [] l.
End sort.

(** ** Data model (pkg/formatter/types.go) *)

(** [type ImportGroup int]. *)
Abbreviation ImportGroup := Z.

Definition StdGroup : ImportGroup := 0.
Definition ThirdPartyGroup : ImportGroup := 1.
Definition ProjectGroup : ImportGroup := 2.
Definition OrgGroupBase : Z := 100.

(** [type Import struct]. *)
Record Import := mkImport {
  Name : string;        (* alias name, empty if no alias *)
  Path : string;        (* import path *)
  Comment : string;     (* inline comment *)
  Group : ImportGroup;
  OrgIndex : Z;         (* index in the org list for ordering *)
  ProjectName : string  (* project name within org for sub-grouping *)
}.

(** [type FormatterConfig struct]. *)
Record FormatterConfig := mkConfig {
  FilePath : string;
  Orgs : list string;
  CurrentProject : string;
  InPlace : bool
}.

(** ** Package [errors] (pkg/errors/messages.go) *)

Module errors.
Definition ErrMsgFailedToReadFile := "failed to read file".
Definition ErrMsgFailedToParseFile := "failed to parse file".
Definition ErrMsgFailedToFormatFile := "failed to format file".
Definition ErrMsgFailedToExtractImports := "failed to extract imports".
Definition InfoMsgCurrentProjectOutput := "current project: ".
(** The [Printf] formats, as functions of their operands. *)
Definition ErrMsgFilesFailedToProcess (n : Z) := pretty n +:+ " files failed to process".
Definition InfoMsgProcessedFiles (path : string) := "Processed: " +:+ path.
Definition InfoMsgErrorProcessing (path err : string) :=
  "Error processing " +:+ path +:+ ": " +:+ err.
Definition InfoMsgProcessedCount (n : Z) :=
  String "010"%char ("Processed " +:+ pretty n +:+ " files successfully").
Definition InfoMsgErrorCount (n : Z) := ", " +:+ pretty n +:+ " files had errors".
End errors.

(** The double quote character (byte 34) and the line feed. *)
Definition dquote : string := String "034"%char EmptyString.
Definition nl : string := String "010"%char EmptyString.

(** ** Syntax trees (the part of [go/ast] the formatter touches) *)

Module ast.
(** The tokens a [GenDecl] can carry. *)
Inductive Token := IMPORT | CONST | TYPE | VAR.

Record CommentGroup := mkCommentGroup { List : list string }.

(** [ast.ImportSpec]; [None] is a nil pointer. *)
Record ImportSpec := mkImportSpec {
  Name : option string;          (* local package name (including "."); or nil *)
  Path : option string;          (* the [Value] of the import path literal *)
  Comment : option CommentGroup  (* line comments; or nil *)
}.

(** [ast.Spec]: import specs and the other two kinds, kept opaque. *)
Inductive Spec :=
| ImportSpecNode (s : ImportSpec)
| ValueSpec (src : string)
| TypeSpec (src : string).

Record GenDecl := mkGenDecl {
  Tok : Token;
  Lparen : Z;
  Specs : list Spec
}.

(** [ast.Decl]; function and bad declarations are opaque. *)
Inductive Decl :=
| GenDeclNode (d : GenDecl)
| FuncDecl (src : string)
| BadDecl (src : string).

Record File := mkFile {
  PackageName : string;            (* [file.Name.Name] *)
  Decls : list Decl;               (* top-level declarations *)
  Imports : list ImportSpec;       (* imports in this file *)
  Comments : list CommentGroup     (* all comments in the source file *)
}.
End ast.

(** ** The world the driver runs in *)

(** The file system (path to content), the paths that refuse writes, the
    working directory ([None] when it cannot be determined) and what has been
    printed on standard output. *)
Record World := mkWorld {
  files : gmap string string;
  unwritable : gset string;
  cwd : option string;
  stdout : string
}.

(** An [error] value is modelled by its message. *)
Definition error : Type := string.

Definition os_ReadFile (w : World) (name : string) : string + error :=
  match files w !! name with
  | Some data => inl data
  | None => inr ("open " +:+ name +:+ ": no such file or directory")
  end.

Definition os_WriteFile (w : World) (name data : string) : World * option error :=
  if decide (name ∈ unwritable w)
  then (w, Some ("open " +:+ name +:+ ": permission denied"))
  else (mkWorld (<[name := data]> (files w)) (unwritable w) (cwd w) (stdout w), None).

(** [fmt.Print] of operands that are all strings. *)
Definition fmt_Print (w : World) (s : string) : World :=
  mkWorld (files w) (unwritable w) (cwd w) (stdout w +:+ s).

(** ** Package [utils] (pkg/utils/module.go) *)

Module utils.
Section GetProjectModule.
(** [strings.TrimSpace]. *)
Variable TrimSpace : string → string.

(** The scan of the lines of a [go.mod] for the module declaration. *)
Fixpoint moduleLine (lines : list string) : option string :=
  match lines with
  | [] => None
  | line :: rest =>
      if HasPrefix line "module "
      then Some (TrimSpace (TrimPrefix line "module"))
      else moduleLine rest
  end.

(** The walk up the directories, at most [iterations] of them left. *)
Fixpoint findGoMod (w : World) (dir : string) (iterations : nat) : option string :=
  match iterations with
  | O => None
  | S iterations =>
      let lastSlash := LastIndex dir "/" in
      if lastSlash <=? 0 then None
      else
        let dir := String.substring 0 (Z.to_nat lastSlash) dir in
        let goModPath := dir +:+ "/go.mod" in
        match os_ReadFile w goModPath with
        | inl content =>
            match moduleLine (Split content "010") with
            | Some module => Some module
            | None => findGoMod w dir iterations
            end
        | inr _ => findGoMod w dir iterations
        end
  end.

(** [GetProjectModule]: the module name from the nearest [go.mod] above the
    file, else the three path segments after [/src/], else the empty
    string. *)
Definition GetProjectModule (w : World) (filePath : string) : string :=
  let absPath :=
    if negb (HasPrefix filePath "/") then
      match cwd w with
      | Some wd => wd +:+ "/" +:+ filePath
      | None => filePath
      end
    else filePath in
  let maxIterations := 20%nat in
  match findGoMod w absPath maxIterations with
  | Some module => module
  | None =>
      if Contains filePath "/src/" then
        let parts := SplitSep filePath "/src/" in
        if (1 <? length parts)%nat then
          let pathParts := Split (default "" (parts !! 1%nat)) "/" in
          if (3 <=? length pathParts)%nat then Join (take 3 pathParts) "/"
          else ""
        else ""
      else ""
  end.
End GetProjectModule.

(** [IsGoFile] (pkg/utils/files.go): a Go source file by its name, test
    files included. *)
Definition IsGoFile (filename : string) : bool := HasSuffix filename ".go".
End utils.

(** ** The formatter (pkg/formatter/formatter.go) *)

Section formatter.
(** [std.IsStandardPackage]: membership in the generated table of
    standard-library package paths. *)
Variable IsStandardPackage : string → bool.
(** The [Text] method of [ast.CommentGroup], and [strings.TrimSpace]. *)
Variable CommentGroup_Text : ast.CommentGroup → string.
Variable TrimSpace : string → string.
(** [token.FileSet], [parser.ParseFile] with [parser.ParseComments] and
    [format.Node]. *)
Variable FileSet : Type.
Variable parser_ParseFile : FileSet → string → string → FileSet * (ast.File + error).
Variable format_Node : FileSet → ast.File → string + error.

Record formatter := mkFormatter {
  config : FormatterConfig;
  fileSet : FileSet
}.

Definition getFilePath (g : formatter) : string := FilePath (config g).
Definition getOrgs (g : formatter) : list string := Orgs (config g).
Definition getInPlace (g : formatter) : bool := InPlace (config g).

Definition getCurrentProject (g : formatter) (w : World) : string :=
  if String.eqb (CurrentProject (config g)) ""
  then utils.GetProjectModule TrimSpace w (getFilePath g)
  else CurrentProject (config g).

(** The record [extractImports] builds for a spec: alias and trailing
    comment when present, the classification fields at their zero values. *)
Definition importOfSpec (path : string) (importSpec : ast.ImportSpec) : Import := {|
  Name := default "" (ast.Name importSpec);
  Path := path;
  Comment := from_option CommentGroup_Text "" (ast.Comment importSpec);
  Group := 0; OrgIndex := 0; ProjectName := "" |}.

(** [extractImports]: one record per distinct path, in order of first
    appearance.  [None] is the nil dereference of a spec without a path. *)
Fixpoint extractImports_loop (specs : list ast.ImportSpec)
    (seen : gmap string bool) (imports : list Import) : option (list Import) :=
  match specs with
  | [] => Some imports
  | importSpec :: rest =>
      value ← ast.Path importSpec;
      let path := Trim value dquote in
      if default false (seen !! path) then extractImports_loop rest seen imports
      else
        let imp := importOfSpec path importSpec in
        extractImports_loop rest (<[path := true]> seen) (imports ++ [imp])
  end.

Definition extractImports (file : ast.File) : option (list Import) :=
  extractImports_loop (ast.Imports file) ∅ [].

Definition isStdImport (importPath : string) : bool :=
  IsStandardPackage importPath.

(** [classifyImport]: standard library first, then the project prefix,
    then the first organization prefix in configured order, third-party
    otherwise. *)
Definition classifyImport (g : formatter) (importPath projectModule : string)
    : ImportGroup :=
  if isStdImport importPath then StdGroup
  else if HasPrefix importPath projectModule then ProjectGroup
  else match list_find (λ org, HasPrefix importPath org = true) (getOrgs g) with
       | Some (i, _) => OrgGroupBase + Z.of_nat i
       | None => ThirdPartyGroup
       end.

(** [getOrgInfo]: index of the first organization prefix of the path and
    the path segment that follows it. *)
Definition getOrgInfo (g : formatter) (importPath : string) : Z * string :=
  match list_find (λ org, HasPrefix importPath org = true) (getOrgs g) with
  | Some (i, org) =>
      let remaining := TrimPrefix importPath org in
      let remaining := TrimPrefix remaining "/" in
      let segments := Split remaining "/" in
      match segments with
      | seg :: _ => (Z.of_nat i, seg)
      | [] => (Z.of_nat i, "")
      end
  | None => (-1, "")
  end.

(** The two [less] functions of [sortImportsInGroup]. *)
Definition lessOrg (a b : Import) : bool :=
  if negb (String.eqb (ProjectName a) (ProjectName b))
  then String.ltb (ProjectName a) (ProjectName b)
  else String.ltb (Path a) (Path b).

Definition lessPath (a b : Import) : bool := String.ltb (Path a) (Path b).

Definition sortImportsInGroup (imports : list Import) (group : ImportGroup)
    : list Import :=
  if OrgGroupBase <=? group then sort_Slice lessOrg imports
  else sort_Slice lessPath imports.

(** The body of the first loop of [groupImports] for one record. *)
Definition assignGroup (g : formatter) (projectModule : string) (imp : Import)
    : Import :=
  let group := classifyImport g (Path imp) projectModule in
  if OrgGroupBase <=? group then
    let '(orgIndex, projectName) := getOrgInfo g (Path imp) in
    {| Name := Name imp; Path := Path imp; Comment := Comment imp;
       Group := group; OrgIndex := orgIndex; ProjectName := projectName |}
  else
    {| Name := Name imp; Path := Path imp; Comment := Comment imp;
       Group := group; OrgIndex := OrgIndex imp; ProjectName := ProjectName imp |}.

(** [m[k]] on a map of slices: the nil slice when the key is absent. *)
Definition at_key {K} `{Countable K} (m : gmap K (list Import)) (k : K)
    : list Import := default [] (m !! k).

Definition groupImports (g : formatter) (w : World) (imports : list Import)
    (filePath : string) : gmap Z (list Import) :=
  let projectModule := getCurrentProject g w in
  let projectModule :=
    if String.eqb projectModule "" then utils.GetProjectModule TrimSpace w filePath
    else projectModule in
  let grouped :=
    foldl (λ grouped imp,
             let imp := assignGroup g projectModule imp in
             <[Group imp := at_key grouped (Group imp) ++ [imp]]> grouped)
          ∅ imports in
  map_imap (λ group imports, Some (sortImportsInGroup imports group)) grouped.

(** [addGroupImports]: one spec per record, appended to the declaration. *)
Definition importSpecOf (imp : Import) : ast.ImportSpec := {|
  ast.Path := Some (dquote +:+ Path imp +:+ dquote);
  ast.Name := if negb (String.eqb (Name imp) "") then Some (Name imp) else None;
  ast.Comment :=
    if negb (String.eqb (Comment imp) "")
    then Some (ast.mkCommentGroup [Comment imp]) else None |}.

Definition addGroupImports (importDecl : ast.GenDecl) (imports : list Import)
    : ast.GenDecl :=
  foldl (λ importDecl imp,
           ast.mkGenDecl (ast.Tok importDecl) (ast.Lparen importDecl)
             (ast.Specs importDecl ++ [ast.ImportSpecNode (importSpecOf imp)]))
        importDecl imports.

(** [addOrgImports]: the records bucketed by (org index, project name),
    buckets emitted in sorted key order. *)
Definition lessOrgProject (a b : Z * string) : bool :=
  if negb (a.1 =? b.1) then a.1 <? b.1 else String.ltb a.2 b.2.

Definition addOrgImports (importDecl : ast.GenDecl) (imports : list Import)
    : ast.GenDecl :=
  if (length imports =? 0)%nat then importDecl
  else
    let projectGroups : gmap (Z * string) (list Import) :=
      foldl (λ projectGroups imp,
               let key := (OrgIndex imp, ProjectName imp) in
               <[key := at_key projectGroups key ++ [imp]]> projectGroups)
            ∅ imports in
    let keys := (map_to_list projectGroups).*1 in
    let keys := sort_Slice lessOrgProject keys in
    foldl (λ importDecl key, addGroupImports importDecl (at_key projectGroups key))
          importDecl keys.

(** [len(x) > 0]. *)
Definition nonEmpty {A} (x : list A) : bool := (0 <? length x)%nat.

Definition isImportDecl (decl : ast.Decl) : bool :=
  match decl with
  | ast.GenDeclNode genDecl =>
      match ast.Tok genDecl with ast.IMPORT => true | _ => false end
  | _ => false
  end.

Definition hasOrgImports (g : formatter) (groupedImports : gmap Z (list Import))
    : bool :=
  existsb (λ i, nonEmpty (at_key groupedImports (OrgGroupBase + Z.of_nat i)))
          (seq 0 (length (getOrgs g))).

(** [replaceImports]: every import declaration dropped, one synthesized
    declaration put in front when there is anything to import. *)
Definition replaceImports (g : formatter) (file : ast.File)
    (groupedImports : gmap Z (list Import)) : ast.File :=
  let newDecls := filter (λ decl, isImportDecl decl = false) (ast.Decls file) in
  let hasImports :=
    nonEmpty (at_key groupedImports StdGroup) ||
    nonEmpty (at_key groupedImports ThirdPartyGroup) ||
    nonEmpty (at_key groupedImports ProjectGroup) ||
    hasOrgImports g groupedImports in
  if hasImports then
    let importDecl := ast.mkGenDecl ast.IMPORT 1 [] in
    let importDecl :=
      let imports := at_key groupedImports StdGroup in
      if nonEmpty imports then addGroupImports importDecl imports else importDecl in
    let importDecl :=
      let imports := at_key groupedImports ThirdPartyGroup in
      if nonEmpty imports then addGroupImports importDecl imports else importDecl in
    let importDecl :=
      foldl (λ importDecl i,
               let orgGroup := OrgGroupBase + Z.of_nat i in
               let imports := at_key groupedImports orgGroup in
               if nonEmpty imports then addOrgImports importDecl imports
               else importDecl)
            importDecl (seq 0 (length (getOrgs g))) in
    let importDecl :=
      let imports := at_key groupedImports ProjectGroup in
      if nonEmpty imports then addGroupImports importDecl imports else importDecl in
    ast.mkFile (ast.PackageName file) (ast.GenDeclNode importDecl :: newDecls)
      (ast.Imports file) (ast.Comments file)
  else
    ast.mkFile (ast.PackageName file) newDecls (ast.Imports file) (ast.Comments file).

(** [formatImportSpec]: [alias "path" // comment], absent parts left out. *)
Definition formatImportSpec (spec : ast.ImportSpec) : string :=
  let parts := [] in
  let parts := match ast.Name spec with Some name => parts ++ [name] | None => parts end in
  let parts := match ast.Path spec with Some value => parts ++ [value] | None => parts end in
  let parts :=
    match ast.Comment spec with
    | Some group =>
        let comment := TrimSpace (CommentGroup_Text group) in
        if negb (String.eqb comment "") then parts ++ ["// " +:+ comment] else parts
    | None => parts
    end in
  Join parts " ".

(** [shouldAddSpacingBetweenImports], for an index inside [specs] (the
    only indices [formatFile] and [formatImportsOnly] pass). *)
Definition shouldAddSpacingBetweenImports (g : formatter) (w : World)
    (specs : list ast.Spec) (currentIndex : nat) : bool :=
  match currentIndex with
  | O => false
  | S prevIndex =>
      match specs !! currentIndex with
      | Some (ast.ImportSpecNode {| ast.Path := Some currentValue |}) =>
          match specs !! prevIndex with
          | Some (ast.ImportSpecNode {| ast.Path := Some prevValue |}) =>
              let currentPath := Trim currentValue dquote in
              let prevPath := Trim prevValue dquote in
              let currentGroup := classifyImport g currentPath (getCurrentProject g w) in
              let prevGroup := classifyImport g prevPath (getCurrentProject g w) in
              if negb (currentGroup =? prevGroup) then true
              else if OrgGroupBase <=? currentGroup then
                let currentOrgProject := (getOrgInfo g currentPath).2 in
                let prevOrgProject := (getOrgInfo g prevPath).2 in
                negb (String.eqb currentOrgProject prevOrgProject)
                && negb (String.eqb prevOrgProject "")
                && negb (String.eqb currentOrgProject "")
              else false
          | _ => false
          end
      | _ => false
      end
  end.

(** The lines one spec contributes to the import block: an optional blank
    line, then the tab-indented spec. *)
Definition importSpecLines (g : formatter) (w : World) (specs : list ast.Spec)
    (i : nat) (spec : ast.Spec) : list string :=
  match spec with
  | ast.ImportSpecNode importSpec =>
      let importLine := formatImportSpec importSpec in
      (if (0 <? i)%nat && shouldAddSpacingBetweenImports g w specs i then [""] else [])
      ++ [String "009"%char importLine]
  | _ => []
  end.

Definition importBlockLines (g : formatter) (w : World) (specs : list ast.Spec)
    : list string :=
  ["import ("] ++ concat (imap (importSpecLines g w specs) specs) ++ [")"].

(** The last import declaration of a declaration list, as the loop of
    [formatFile] leaves it in [importDecl]. *)
Definition lastImportDecl (decls : list ast.Decl) : option ast.GenDecl :=
  foldl (λ importDecl decl,
           match decl with
           | ast.GenDeclNode genDecl =>
               match ast.Tok genDecl with
               | ast.IMPORT => Some genDecl
               | _ => importDecl
               end
           | _ => importDecl
           end) None decls.

Fixpoint formatFile_lines (g : formatter) (w : World)
    (importDecl : option ast.GenDecl) (lines : list string)
    (packageLineFound : bool) : list string :=
  match lines with
  | [] => []
  | line :: rest =>
      if negb packageLineFound && HasPrefix (TrimSpace line) "package " then
        [line; ""]
        ++ match importDecl with
           | Some decl =>
               if nonEmpty (ast.Specs decl)
               then importBlockLines g w (ast.Specs decl) ++ [""]
               else []
           | None => []
           end
        ++ formatFile_lines g w importDecl rest true
      else line :: formatFile_lines g w importDecl rest packageLineFound
  end.

(** [formatFile]: the file printed without its imports, the import block
    spliced in below the package line. *)
Definition formatFile (g : formatter) (w : World) (file : ast.File)
    : string + error :=
  let importDecl := lastImportDecl (ast.Decls file) in
  let nonImportDecls := filter (λ decl, isImportDecl decl = false) (ast.Decls file) in
  match format_Node (fileSet g)
          (ast.mkFile (ast.PackageName file) nonImportDecls [] (ast.Comments file)) with
  | inr err => inr err
  | inl buf =>
      let lines := Split buf "010" in
      inl (Join (formatFile_lines g w importDecl lines false) nl)
  end.

Definition formatImportsOnly (g : formatter) (w : World) (file : ast.File)
    : string + error :=
  let result := ["package " +:+ ast.PackageName file; ""] in
  let result :=
    match filter (λ decl, isImportDecl decl = true) (ast.Decls file) with
    | ast.GenDeclNode genDecl :: _ =>
        if nonEmpty (ast.Specs genDecl)
        then result ++ importBlockLines g w (ast.Specs genDecl)
        else result
    | _ => result
    end in
  inl (Join result nl +:+ nl).

Definition extractImportsOnly (g : formatter) (w : World) (file : ast.File)
    : string + error :=
  formatImportsOnly g w
    (ast.mkFile (ast.PackageName file)
       (filter (λ decl, isImportDecl decl = true) (ast.Decls file))
       (ast.Imports file) []).

(** [fmt.Errorf("%s: %w", msg, err)]. *)
Definition wrap (msg : string) (err : error) : error := msg +:+ ": " +:+ err.

Definition setFilePath (g : formatter) (filePath : string) : formatter :=
  mkFormatter
    (mkConfig filePath (Orgs (config g)) (CurrentProject (config g)) (InPlace (config g)))
    (fileSet g).

(** [ProcessFileWithOutput]: the formatter (its file set grows), the world
    and the returned error ([None] is nil).  The outer [None] is the panic
    of [extractImports]. *)
Definition ProcessFileWithOutput (g : formatter) (verbose : bool) (w : World)
    : option (formatter * World * option error) :=
  let w :=
    if verbose
    then fmt_Print w (errors.InfoMsgCurrentProjectOutput +:+ getCurrentProject g w +:+ nl)
    else w in
  match os_ReadFile w (getFilePath g) with
  | inr err => Some (g, w, Some (wrap errors.ErrMsgFailedToReadFile err))
  | inl src =>
      let '(fset, parsed) := parser_ParseFile (fileSet g) (getFilePath g) src in
      let g := mkFormatter (config g) fset in
      match parsed with
      | inr err => Some (g, w, Some (wrap errors.ErrMsgFailedToParseFile err))
      | inl file =>
          if (length (ast.Imports file) =? 0)%nat then
            (* No imports to process *)
            if getInPlace g then Some (g, w, None)
            else if negb (getInPlace g) && verbose
                 then Some (g, fmt_Print w src, None)
                 else Some (g, w, None)
          else
            imports ← extractImports file;
            let groupedImports := groupImports g w imports (getFilePath g) in
            let newFile := replaceImports g file groupedImports in
            match formatFile g w newFile with
            | inr err => Some (g, w, Some (wrap errors.ErrMsgFailedToFormatFile err))
            | inl output =>
                if getInPlace g then
                  let '(w, err) := os_WriteFile w (getFilePath g) output in
                  Some (g, w, err)
                else if verbose then
                  match extractImportsOnly g w newFile with
                  | inr err =>
                      Some (g, w, Some (wrap errors.ErrMsgFailedToExtractImports err))
                  | inl importsOnly => Some (g, fmt_Print w importsOnly, None)
                  end
                else Some (g, w, None)
            end
      end
  end.

Definition ProcessFile (g : formatter) (w : World)
    : option (formatter * World * option error) :=
  ProcessFileWithOutput g true w.

(** The loop of [ProcessFiles], with its two counters. *)
Fixpoint ProcessFiles_loop (g : formatter) (w : World) (filePaths : list string)
    (processedCount errorCount : Z) : option (formatter * World * Z * Z) :=
  match filePaths with
  | [] => Some (g, w, processedCount, errorCount)
  | filePath :: rest =>
      let g := setFilePath g filePath in
      '(g, w, err) ← ProcessFileWithOutput g false w;
      match err with
      | Some err =>
          let w := fmt_Print w (errors.InfoMsgErrorProcessing filePath err +:+ nl) in
          ProcessFiles_loop g w rest processedCount (errorCount + 1)
      | None =>
          let w :=
            if getInPlace g
            then fmt_Print w (errors.InfoMsgProcessedFiles filePath +:+ nl)
            else w in
          ProcessFiles_loop g w rest (processedCount + 1) errorCount
      end
  end.

Definition ProcessFiles (g : formatter) (w : World) (filePaths : list string)
    : option (formatter * World * option error) :=
  '(g, w, processedCount, errorCount) ← ProcessFiles_loop g w filePaths 0 0;
  let w := fmt_Print w (errors.InfoMsgProcessedCount processedCount) in
  let w := if 0 <? errorCount then fmt_Print w (errors.InfoMsgErrorCount errorCount) else w in
  let w := fmt_Print w nl in
  if 0 <? errorCount
  then Some (g, w, Some (errors.ErrMsgFilesFailedToProcess errorCount))
  else Some (g, w, None).
End formatter.

Arguments mkFormatter {FileSet}.
Arguments config {FileSet}.
Arguments fileSet {FileSet}.
Arguments getFilePath {FileSet}.
Arguments getOrgs {FileSet}.
Arguments getInPlace {FileSet}.
Arguments getCurrentProject _ {FileSet}.
Arguments classifyImport _ {FileSet}.
Arguments getOrgInfo {FileSet}.
Arguments assignGroup _ {FileSet}.
Arguments groupImports _ _ {FileSet}.
Arguments hasOrgImports {FileSet}.
Arguments replaceImports {FileSet}.
Arguments shouldAddSpacingBetweenImports _ _ {FileSet}.
Arguments importSpecLines _ _ _ {FileSet}.
Arguments importBlockLines _ _ _ {FileSet}.
Arguments formatFile_lines _ _ _ {FileSet}.
Arguments formatFile _ _ _ {FileSet}.
Arguments formatImportsOnly _ _ _ {FileSet}.
Arguments extractImportsOnly _ _ _ {FileSet}.
Arguments setFilePath {FileSet}.
Arguments ProcessFileWithOutput _ _ _ {FileSet}.
Arguments ProcessFile _ _ _ {FileSet}.
Arguments ProcessFiles_loop _ _ _ {FileSet}.
Arguments ProcessFiles _ _ _ {FileSet}.

(** * Vocabulary of the specification *)

(** A path-segment-respecting prefix, in the words of the specification:
    the path equals the prefix, or the character after the prefix is a path
    separator. *)
Definition segmentPrefix (prefix path : string) : Prop :=
  path = prefix ∨ ∃ rest, path = prefix +:+ "/" +:+ rest.

(** One leading separator removed, if there is one. *)
Definition stripLeadingSlash (s : string) : string :=
  match s with
  | String "/" s' => s'
  | _ => s
  end.

(** The text before the first separator. *)
Fixpoint uptoSlash (s : string) : string :=
  match s with
  | EmptyString => EmptyString
  | String c s' => if Ascii.eqb c "/" then EmptyString else String c (uptoSlash s')
  end.

(** The import path a spec is keyed by: its literal without the quotes. *)
Definition specPath (importSpec : ast.ImportSpec) : option string :=
  (λ value, Trim value dquote) <$> ast.Path importSpec.

(** First occurrences: the specs whose path is not in [seen] and was not
    met earlier in the list, each turned into its record. *)
Fixpoint firstOccurrences (CommentGroup_Text : ast.CommentGroup → string)
    (seen : list string) (specs : list ast.ImportSpec) : list Import :=
  match specs with
  | [] => []
  | importSpec :: rest =>
      match specPath importSpec with
      | Some path =>
          if bool_decide (path ∈ seen) then firstOccurrences CommentGroup_Text seen rest
          else importOfSpec CommentGroup_Text path importSpec
               :: firstOccurrences CommentGroup_Text (path :: seen) rest
      | None => []
      end
  end.

(** The invariant of a classified record, for the formatter and world it
    was classified in: the path carries no quote at either end (it came out
    of [extractImports]), the group is the classifier's, and an organization
    import carries the project name of [getOrgInfo]. *)
Definition classified (IsStandardPackage : string → bool)
    (TrimSpace : string → string) {FileSet}
    (g : formatter FileSet) (w : World) (imp : Import) : Prop :=
  Trim (Path imp) dquote = Path imp
  ∧ Group imp = classifyImport IsStandardPackage g (Path imp)
                  (getCurrentProject TrimSpace g w)
  ∧ (OrgGroupBase ≤ Group imp → ProjectName imp = (getOrgInfo g (Path imp)).2).

(** The specs [addGroupImports] makes of a slice of records. *)
Abbreviation specsOf := (fmap (M := list) (λ imp, ast.ImportSpecNode (importSpecOf imp))).

(** The project module [groupImports] classifies with: the one of
    [getCurrentProject], resolved once more from the file path when empty. *)
Definition projectModuleOf (TrimSpace : string → string) {FileSet}
    (g : formatter FileSet) (w : World) (filePath : string) : string :=
  if String.eqb (getCurrentProject TrimSpace g w) ""
  then utils.GetProjectModule TrimSpace w filePath
  else getCurrentProject TrimSpace g w.

(** The blank-line rule of the specification for two adjacent entries. *)
Definition spacerBetween (prev cur : Import) : Prop :=
  Group cur ≠ Group prev
  ∨ (OrgGroupBase ≤ Group cur ∧ OrgGroupBase ≤ Group prev
     ∧ ProjectName cur ≠ ProjectName prev
     ∧ ProjectName cur ≠ "" ∧ ProjectName prev ≠ "").

(** The orders of the specification: by path for the standard, third-party
    and project groups; by project name, then path, inside an organization
    group; by organization index, then project name, on the bucket keys of
    [addOrgImports]. *)
Definition pathLe (a b : Import) : Prop := String.le (Path a) (Path b).

Definition orgLe (a b : Import) : Prop :=
  String.ltb (ProjectName a) (ProjectName b) = true
  ∨ (ProjectName a = ProjectName b ∧ String.le (Path a) (Path b)).

Definition keyLe (a b : Z * string) : Prop :=
  a.1 < b.1 ∨ (a.1 = b.1 ∧ String.le a.2 b.2).

(** The bucket key of a record in [addOrgImports]. *)
Definition orgProject (imp : Import) : Z * string := (OrgIndex imp, ProjectName imp).

(** The slices [replaceImports] reads from a table, in the order it reads
    them: the three fixed groups and one key per configured organization. *)
Definition knownGroups {FileSet} (g : formatter FileSet)
    (groupedImports : gmap Z (list Import)) : list Import :=
  at_key groupedImports StdGroup
  ++ at_key groupedImports ThirdPartyGroup
  ++ (seq 0 (length (getOrgs g))
        ≫= (λ i, at_key groupedImports (OrgGroupBase + Z.of_nat i)))
  ++ at_key groupedImports ProjectGroup.

(** The path [GetProjectModule] walks up from: the file path when it is
    absolute, else the file path under the working directory when that is
    known. *)
Definition absolutePath (w : World) (filePath : string) : string :=
  if negb (HasPrefix filePath "/") then
    match cwd w with
    | Some wd => wd +:+ "/" +:+ filePath
    | None => filePath
    end
  else filePath.

(** The module the [go.mod] of a directory declares, if the file is there
    and has a module line. *)
Definition declaredModule (TrimSpace : string → string) (w : World) (dir : string)
    : option string :=
  match os_ReadFile w (dir +:+ "/go.mod") with
  | inl content => utils.moduleLine TrimSpace (Split content "010")
  | inr _ => None
  end.

(** The path that lies the given segments below a directory. *)
Definition below (dir : string) (segments : list string) : string :=
  foldl (λ path segment, path +:+ "/" +:+ segment) dir segments.

(** The contract of the parser the formatter relies on when it dereferences
    [importSpec.Path]: every import spec of a parsed file carries its path
    literal. *)
Definition parsesPaths {FileSet}
    (parser_ParseFile : FileSet → string → string → FileSet * (ast.File + error))
    : Prop :=
  ∀ fset filename src fset' file,
    parser_ParseFile fset filename src = (fset', inl file) →
    Forall (λ importSpec, is_Some (ast.Path importSpec)) (ast.Imports file).

(** What [formatFile] splices in below the package line: a blank line, then
    the import block and another blank line when there are specs to emit. *)
Definition splicedLines (IsStandardPackage : string → bool)
    (CommentGroup_Text : ast.CommentGroup → string) (TrimSpace : string → string)
    {FileSet} (g : formatter FileSet) (w : World) (importDecl : option ast.GenDecl)
    : list string :=
  [""] ++ match importDecl with
          | Some decl =>
              if nonEmpty (ast.Specs decl)
              then importBlockLines IsStandardPackage CommentGroup_Text
                     TrimSpace g w (ast.Specs decl) ++ [""]
              else []
          | None => []
          end.

(** The world after the optional first line of [ProcessFileWithOutput]. *)
Definition announced (TrimSpace : string → string) {FileSet}
    (g : formatter FileSet) (verbose : bool) (w : World) : World :=
  if verbose
  then fmt_Print w (errors.InfoMsgCurrentProjectOutput
                    +:+ getCurrentProject TrimSpace g w +:+ nl)
  else w.

(** What [ProcessFiles] prints after a file, by the outcome of the file. *)
Definition reportFile {FileSet} (g : formatter FileSet) (w : World)
    (filePath : string) (outcome : option error) : World :=
  match outcome with
  | Some err => fmt_Print w (errors.InfoMsgErrorProcessing filePath err +:+ nl)
  | None =>
      if getInPlace g then fmt_Print w (errors.InfoMsgProcessedFiles filePath +:+ nl)
      else w
  end.

Section batch_vocabulary.
Context (IsStandardPackage : string → bool).
Context (CommentGroup_Text : ast.CommentGroup → string) (TrimSpace : string → string).
Context {FileSet : Type}.
Context (parser_ParseFile : FileSet → string → string → FileSet * (ast.File + error)).
Context (format_Node : FileSet → ast.File → string + error).

(** A batch, file by file: each path is handed to the single-file
    transform in the state its predecessors left, whatever their outcomes;
    [outcomes] records the error of each file ([None]: success). *)
Inductive batchRun : formatter FileSet → World → list string → list (option error)
    → formatter FileSet → World → Prop :=
| batchRun_nil g w : batchRun g w [] [] g w
| batchRun_cons g w filePath rest g1 w1 outcome outcomes g2 w2 :
    ProcessFileWithOutput IsStandardPackage CommentGroup_Text TrimSpace
      parser_ParseFile format_Node (setFilePath g filePath) false w
      = Some (g1, w1, outcome) →
    batchRun g1 (reportFile g1 w1 filePath outcome) rest outcomes g2 w2 →
    batchRun g w (filePath :: rest) (outcome :: outcomes) g2 w2.
End batch_vocabulary.

(** The number of failed files of a batch. *)
Definition failures (outcomes : list (option error)) : Z :=
  Z.of_nat (length (filter is_Some outcomes)).

(** The number of files of a batch that went through. *)
Definition successes (outcomes : list (option error)) : Z :=
  Z.of_nat (length (filter (λ outcome, outcome = None) outcomes)).

(** * A sample configuration

    Collaborators and fixtures in the manner of [formatter_test.go]: a small
    standard-library table, comment text without its marker, white space
    limited to blank, tab and line ends, a file set without content, and a
    working directory with no [go.mod] above it. *)

Module Sample.
Definition IsStandardPackage (importPath : string) : bool :=
  bool_decide (importPath ∈
    ["context"; "encoding/json"; "fmt"; "net/http"; "os"; "strings"; "time"]).

Definition CommentGroup_Text (group : ast.CommentGroup) : string :=
  let line (comment : string) := TrimPrefix (TrimPrefix comment "//") " " in
  String.concat nl (line <$> ast.List group) +:+ nl.

Definition TrimSpace (s : string) : string :=
  Trim s (String " " (String "009" (String "010" (String "013" EmptyString)))).

Definition imp (path : string) : Import := mkImport "" path "" 0 0 "".

Definition G (orgs : list string) (currentProject : string) (inPlace : bool)
    : formatter unit :=
  mkFormatter (mkConfig "main.go" orgs currentProject inPlace) tt.

Definition emptyWorld : World := mkWorld ∅ ∅ (Some "/work") "".

(** Two sources and the trees a parser makes of them: one with imports out
    of order and a repeated path, one without imports. *)
Definition mainSrc : string :=
  String.concat nl
    ["package main"; "";
     "import (";
     String "009" (dquote +:+ "github.com/external/lib" +:+ dquote);
     String "009" (dquote +:+ "fmt" +:+ dquote +:+ " // first");
     String "009" ("f " +:+ dquote +:+ "fmt" +:+ dquote +:+ " // second");
     String "009" (dquote +:+ "github.com/myorg/project1" +:+ dquote);
     ")"; "";
     "func main() {}"; ""].

Definition mainFile : ast.File :=
  let lit (path : string) := Some (dquote +:+ path +:+ dquote) in
  let imports :=
    [ast.mkImportSpec None (lit "github.com/external/lib") None;
     ast.mkImportSpec None (lit "fmt") (Some (ast.mkCommentGroup ["// first"]));
     ast.mkImportSpec (Some "f") (lit "fmt") (Some (ast.mkCommentGroup ["// second"]));
     ast.mkImportSpec None (lit "github.com/myorg/project1") None] in
  ast.mkFile "main"
    [ast.GenDeclNode (ast.mkGenDecl ast.IMPORT 1 (ast.ImportSpecNode <$> imports));
     ast.FuncDecl "func main() {}"]
    imports
    [ast.mkCommentGroup ["// first"]; ast.mkCommentGroup ["// second"]].

Definition plainSrc : string :=
  String.concat nl ["package main"; ""; "func main() {}"; ""].

Definition plainFile : ast.File :=
  ast.mkFile "main" [ast.FuncDecl "func main() {}"] [] [].

Definition ParseFile (fset : unit) (filename src : string) : unit * (ast.File + error) :=
  if String.eqb src mainSrc then (tt, inl mainFile)
  else if String.eqb src plainSrc then (tt, inl plainFile)
  else (tt, inr (filename +:+ ":1:1: expected 'package'")).

(** A printer for import-free trees: the package clause, then the
    declarations a blank line apart. *)
Definition format_Node (fset : unit) (file : ast.File) : string + error :=
  let text (decl : ast.Decl) :=
    match decl with
    | ast.GenDeclNode _ => ""
    | ast.FuncDecl src | ast.BadDecl src => src
    end in
  inl (String.concat (nl +:+ nl)
         (("package " +:+ ast.PackageName file) :: (text <$> ast.Decls file)) +:+ nl).

(** A world with the two sources and a write-protected third file. *)
Definition world : World :=
  mkWorld
    (<["main.go" := mainSrc]> (<["plain.go" := plainSrc]> (<["locked.go" := mainSrc]> ∅)))
    {["locked.go"]} (Some "/work") "".
End Sample.

(** * Properties *)

(** ** Strings *)

Section string_facts.
Lemma app_cons a s t : String a s +:+ t = String a (s +:+ t).
Proof. reflexivity. Qed.

Lemma app_empty_l s : "" +:+ s = s.
Proof. reflexivity. Qed.

Lemma app_empty_r s : s +:+ "" = s.
Proof. induction s as [|a s IH]; [done|]. by rewrite app_cons, IH. Qed.

Lemma app_assoc_string s t u : (s +:+ t) +:+ u = s +:+ t +:+ u.
Proof. induction s as [|a s IH]; [done|]. by rewrite !app_cons, IH. Qed.

Lemma HasPrefix_empty s : HasPrefix s "" = true.
Proof. by destruct s. Qed.

Lemma HasPrefix_cons a s b p :
  HasPrefix (String a s) (String b p) = bool_decide (a = b) && HasPrefix s p.
Proof.
  unfold HasPrefix; simpl. destruct (ascii_dec b a) as [->|Hne].
  - by rewrite bool_decide_eq_true_2.
  - rewrite bool_decide_eq_false_2; [done|congruence].
Qed.

Lemma HasPrefix_spec s p : HasPrefix s p = true ↔ ∃ r, s = p +:+ r.
Proof.
  revert s. induction p as [|b p IH]; intros s.
  - rewrite HasPrefix_empty. split; [eauto|done].
  - destruct s as [|a s].
    + split; [done|]. by intros [r Hr].
    + rewrite HasPrefix_cons, andb_true_iff, bool_decide_eq_true, IH. split.
      * intros [-> [r ->]]. by exists r.
      * intros [r Hr]. rewrite app_cons in Hr. injection Hr as -> ->. eauto.
Qed.

Lemma sliceFrom_app p r : sliceFrom (String.length p) (p +:+ r) = r.
Proof. induction p as [|b p IH]; [by destruct r|]. by rewrite app_cons. Qed.

Lemma TrimPrefix_app p r : TrimPrefix (p +:+ r) p = r.
Proof.
  unfold TrimPrefix.
  assert (HasPrefix (p +:+ r) p = true) as -> by (apply HasPrefix_spec; eauto).
  apply sliceFrom_app.
Qed.

Lemma ltb_leb s t : String.ltb s t = negb (String.leb t s).
Proof.
  unfold String.ltb, String.leb. rewrite (String.compare_antisym s t).
  by destruct (t ?= s)%string.
Qed.

Lemma ltb_irrefl s : String.ltb s s = false.
Proof.
  rewrite ltb_leb. apply negb_false_iff, Is_true_true.
  change (String.le s s). done.
Qed.

Lemma ltb_false_le s t : String.ltb s t = false ↔ String.le t s.
Proof.
  rewrite ltb_leb, negb_false_iff. unfold String.le. by rewrite Is_true_true.
Qed.

Lemma ltb_true_nle s t : String.ltb s t = true ↔ ¬ String.le t s.
Proof. rewrite <-ltb_false_le. by destruct (String.ltb s t). Qed.

Lemma ltb_le s t : String.ltb s t = true → String.le s t.
Proof.
  rewrite ltb_true_nle. intros Hn. by destruct (total String.le s t).
Qed.

Lemma ltb_neq s t : String.ltb s t = true → s ≠ t.
Proof. intros H ->. by rewrite ltb_irrefl in H. Qed.

Lemma ltb_total s t : s ≠ t → String.ltb s t = true ∨ String.ltb t s = true.
Proof.
  intros Hne. destruct (String.ltb s t) eqn:Hst; [by left|right].
  apply ltb_false_le in Hst. apply ltb_true_nle. intros Hts.
  apply Hne. by apply (anti_symm String.le).
Qed.
End string_facts.

Section sort_facts.
Context {A : Type} (less : A → A → bool) (R : relation A).
Context `{!Transitive R, !Total R}.
Hypothesis less_R : ∀ a b, less b a = false ↔ R a b.

Lemma insert_by_Permutation x l : insert_by less x l ≡ₚ x :: l.
Proof.
  induction l as [|y l IH]; simpl; [done|].
  destruct (less x y); [done|]. by rewrite IH, Permutation_swap.
Qed.

Lemma sort_Slice_acc_Permutation l acc :
  foldl (λ sorted x, insert_by less x sorted) acc l ≡ₚ acc ++ l.
Proof.
  revert acc. induction l as [|x l IH]; intros acc; simpl.
  - by rewrite app_nil_r.
  - rewrite IH, insert_by_Permutation. simpl. apply Permutation_middle.
Qed.

Lemma sort_Slice_Permutation l : sort_Slice less l ≡ₚ l.
Proof. apply sort_Slice_acc_Permutation. Qed.

Lemma insert_by_sorted x l :
  StronglySorted R l → StronglySorted R (insert_by less x l).
Proof.
  induction 1 as [|y l Hl IH Hy]; simpl.
  - repeat constructor.
  - destruct (less x y) eqn:Hxy.
    + assert (R x y) as Hx.
      { destruct (total R x y) as [|Hyx]; [done|].
        apply less_R in Hyx. congruence. }
      constructor; [by constructor|].
      constructor; [done|]. eapply Forall_impl; [exact Hy|].
      intros z Hz. by trans y.
    + constructor; [done|].
      rewrite insert_by_Permutation. constructor; [|done]. by apply less_R.
Qed.

Lemma sort_Slice_sorted l : StronglySorted R (sort_Slice less l).
Proof.
  unfold sort_Slice. generalize (SSorted_nil R). generalize (@nil A).
  induction l as [|x l IH]; intros acc Hacc; simpl; [done|].
  by apply IH, insert_by_sorted.
Qed.

(** Whatever procedure sorts a slice whose elements are pairwise
    distinguished by the order, the outcome is the one of [sort_Slice]. *)
Lemma sort_Slice_unique l l' :
  (∀ x y, x ∈ l → y ∈ l → R x y → R y x → x = y) →
  l' ≡ₚ l → StronglySorted R l' → l' = sort_Slice less l.
Proof.
  intros Hanti Hperm Hsorted.
  apply (StronglySorted_unique_strong R); [|done|apply sort_Slice_sorted|].
  - intros x y Hx Hy. apply Hanti.
    + by rewrite <-Hperm.
    + by rewrite <-(sort_Slice_Permutation l).
  - by rewrite sort_Slice_Permutation.
Qed.
End sort_facts.

(** ** The classifier *)

Section classifier_facts.
Context (IsStandardPackage : string → bool) {FileSet : Type}.
Implicit Types (g : formatter FileSet) (importPath projectModule : string).

Local Abbreviation classify := (classifyImport IsStandardPackage).

(** The scan of the organization prefixes stops at the first prefix the
    path starts with. *)
Lemma first_org_match g importPath i org :
  getOrgs g !! i = Some org →
  HasPrefix importPath org = true →
  (∀ j q, (j < i)%nat → getOrgs g !! j = Some q → HasPrefix importPath q = false) →
  list_find (λ org, HasPrefix importPath org = true) (getOrgs g) = Some (i, org).
Proof.
  intros Hi Hp Hfirst. apply list_find_Some. split_and!; [done..|].
  intros j q Hj Hlt. rewrite (Hfirst j q); [done|lia|done].
Qed.

Lemma classifyImport_std g importPath projectModule :
  IsStandardPackage importPath = true →
  classify g importPath projectModule = StdGroup.
Proof. intros H. unfold classifyImport, isStdImport. by rewrite H. Qed.

Lemma classifyImport_project g importPath projectModule :
  IsStandardPackage importPath = false →
  HasPrefix importPath projectModule = true →
  classify g importPath projectModule = ProjectGroup.
Proof.
  intros H1 H2. unfold classifyImport, isStdImport.
  by rewrite H1, H2.
Qed.

Lemma classifyImport_other g importPath projectModule :
  IsStandardPackage importPath = false →
  HasPrefix importPath projectModule = false →
  classify g importPath projectModule =
    match list_find (λ org, HasPrefix importPath org = true) (getOrgs g) with
    | Some (i, _) => OrgGroupBase + Z.of_nat i
    | None => ThirdPartyGroup
    end.
Proof.
  intros H1 H2. unfold classifyImport, isStdImport.
  by rewrite H1, H2.
Qed.

(** Every path lands in exactly one of the four kinds of group. *)
Lemma classifyImport_range g importPath projectModule :
  let group := classify g importPath projectModule in
  group = StdGroup ∨ group = ThirdPartyGroup ∨ group = ProjectGroup ∨
  ∃ i org, getOrgs g !! i = Some org ∧ group = OrgGroupBase + Z.of_nat i.
Proof.
  unfold classifyImport.
  destruct (isStdImport _ _); [by left|].
  destruct (HasPrefix _ _); [by right; right; left|].
  destruct (list_find _ _) as [[i org]|] eqn:Hfind; [|by right; left].
  apply list_find_Some in Hfind as (? & ? & ?). right; right; right. eauto.
Qed.

(** An organization group and the organization index of [getOrgInfo]
    name the same prefix. *)
Lemma classifyImport_org_getOrgInfo g importPath projectModule :
  OrgGroupBase ≤ classify g importPath projectModule →
  classify g importPath projectModule
    = OrgGroupBase + (getOrgInfo g importPath).1.
Proof.
  unfold classifyImport, getOrgInfo.
  destruct (isStdImport _ _); [done|].
  destruct (HasPrefix _ _); [done|].
  destruct (list_find _ _) as [[i org]|]; [|done].
  intros _. by destruct (Split _ _).
Qed.

(** With an empty project module every path that is not in the standard
    library is a project import: the empty string is a prefix of every
    path. *)
Lemma classifyImport_empty_project g importPath :
  IsStandardPackage importPath = false →
  classify g importPath "" = ProjectGroup.
Proof. intros H. apply classifyImport_project; [done|apply HasPrefix_empty]. Qed.
End classifier_facts.

(** C2.  With no project prefix known the classifier does not fall back to
    the third-party group: [strings.HasPrefix(importPath, "")] holds of every
    path, so every import outside the standard library is classified as a
    project import, organization imports included.  Here the formatter has
    no [CurrentProject], [GetProjectModule] finds nothing, and the third-party
    and organization groups of the table stay empty. *)
Theorem classifyImport_without_project_module :
  let g := Sample.G ["github.com/myorg"] "" false in
  let grouped :=
    groupImports Sample.IsStandardPackage Sample.TrimSpace g Sample.emptyWorld
      [Sample.imp "fmt"; Sample.imp "github.com/spf13/cobra";
       Sample.imp "github.com/myorg/toolkit/server"] "main.go" in
  getCurrentProject Sample.TrimSpace g Sample.emptyWorld = "" ∧
  classifyImport Sample.IsStandardPackage g "github.com/spf13/cobra" "" = ProjectGroup ∧
  classifyImport Sample.IsStandardPackage g "github.com/myorg/toolkit/server" "" = ProjectGroup ∧
  at_key grouped ThirdPartyGroup = [] ∧
  at_key grouped (OrgGroupBase + 0) = [] ∧
  Path <$> at_key grouped ProjectGroup =
    ["github.com/myorg/toolkit/server"; "github.com/spf13/cobra"].
Proof. vm_compute. by repeat split. Qed.

Section classifier_claims.
Context (IsStandardPackage : string → bool) {FileSet : Type}.
Implicit Types (g : formatter FileSet) (importPath projectModule : string).

Local Abbreviation classify := (classifyImport IsStandardPackage).

(** C3 (amended).  For a path outside the standard library and a non-empty
    project prefix, [classifyImport] answers [ProjectGroup] exactly when the
    path starts with the bytes of the prefix, whatever character follows;
    the organization prefixes play no part, the project check comes first. *)
Theorem classifyImport_project_plain_prefix g importPath projectModule :
  IsStandardPackage importPath = false →
  projectModule ≠ "" →
  (classify g importPath projectModule = ProjectGroup
   ↔ ∃ rest, importPath = projectModule +:+ rest).
Proof.
  intros Hstd _. rewrite <-HasPrefix_spec.
  destruct (HasPrefix importPath projectModule) eqn:Hp.
  - by rewrite classifyImport_project.
  - rewrite classifyImport_other by done. split; [|done].
    destruct (list_find _ _) as [[i org]|]; unfold ProjectGroup, OrgGroupBase, ThirdPartyGroup; lia.
Qed.

Lemma TrimPrefix_slash s : TrimPrefix s "/" = stripLeadingSlash s.
Proof.
  destruct s as [|c s]; [done|]. unfold TrimPrefix.
  rewrite HasPrefix_cons, HasPrefix_empty, andb_true_r. simpl.
  case_bool_decide as Hc; [by subst|].
  destruct c as [[] [] [] [] [] [] [] []]; first [done | by destruct Hc].
Qed.

Lemma Split_cons s sep : ∃ seg segs, Split s sep = seg :: segs.
Proof.
  induction s as [|c s (seg & segs & IH)]; simpl; [by eauto|].
  destruct (Ascii.eqb c sep); [by eauto|]. rewrite IH. eauto.
Qed.

Lemma Split_head s : head (Split s "/") = Some (uptoSlash s).
Proof.
  induction s as [|c s IH]; simpl; [done|].
  destruct (Ascii.eqb c "/"); [done|].
  destruct (Split s "/") as [|seg segs]; [done|]. simpl in *. congruence.
Qed.

(** C10 (amended).  The organization test is a plain string-prefix test in
    [classifyImport] and in [getOrgInfo] alike: a path outside the standard
    library and outside the project that starts with the bytes of the
    configured prefix [org], and of no prefix configured before it, is put in
    the group of [org] whatever character follows the prefix, and its
    project name is the text that follows the prefix, less one leading
    separator, up to the next separator. *)
Theorem org_prefix_plain_first_match g importPath projectModule i org rest :
  getOrgs g !! i = Some org →
  (∀ j q, (j < i)%nat → getOrgs g !! j = Some q → HasPrefix importPath q = false) →
  IsStandardPackage importPath = false →
  HasPrefix importPath projectModule = false →
  importPath = org +:+ rest →
  classify g importPath projectModule = OrgGroupBase + Z.of_nat i ∧
  getOrgInfo g importPath = (Z.of_nat i, uptoSlash (stripLeadingSlash rest)).
Proof.
  intros Hi Hfirst Hstd Hproj ->.
  assert (HasPrefix (org +:+ rest) org = true) as Hp by (apply HasPrefix_spec; eauto).
  pose proof (first_org_match g _ i org Hi Hp Hfirst) as Hfind. split.
  - rewrite classifyImport_other by done. by rewrite Hfind.
  - unfold getOrgInfo. rewrite Hfind, TrimPrefix_app, TrimPrefix_slash.
    pose proof (Split_head (stripLeadingSlash rest)) as Hh.
    destruct (Split _ _) as [|seg segs]; [done|]. simpl in Hh. congruence.
Qed.
End classifier_claims.

(** C3, as stated: the project test does not respect path segments.  A path
    that merely starts with the characters of the project prefix is a project
    import. *)
Lemma classifyImport_project_not_segment_respecting :
  ¬ (∀ (IsStandardPackage : string → bool) (g : formatter unit)
       (importPath projectModule : string),
       IsStandardPackage importPath = false →
       projectModule ≠ "" →
       (classifyImport IsStandardPackage g importPath projectModule = ProjectGroup
        ↔ segmentPrefix projectModule importPath)).
Proof.
  intros H.
  destruct (H Sample.IsStandardPackage (Sample.G [] "github.com/test/project" false)
              "github.com/test/projectextra/lib" "github.com/test/project")
    as [Hseg _]; [done..|].
  assert (segmentPrefix "github.com/test/project" "github.com/test/projectextra/lib")
    as [Heq|[rest Heq]] by (apply Hseg; reflexivity).
  - discriminate Heq.
  - vm_compute in Heq. discriminate Heq.
Qed.

Lemma classifyImport_project_plain_prefix_witness :
  classifyImport Sample.IsStandardPackage (Sample.G ["github.com/myorg"] "" false)
    "github.com/test/projectextra/lib" "github.com/test/project" = ProjectGroup
  ↔ ∃ rest, "github.com/test/projectextra/lib" = "github.com/test/project" +:+ rest.
Proof.
  apply (classifyImport_project_plain_prefix Sample.IsStandardPackage); [reflexivity|discriminate].
Defined.

(** C10, as stated: a path that starts with a configured prefix is not
    always put in the group of that prefix; an earlier configured prefix
    that it also starts with takes it. *)
Lemma org_prefix_group_not_of_every_prefix :
  ¬ (∀ (IsStandardPackage : string → bool) (g : formatter unit)
       (org importPath projectModule : string),
       org ∈ getOrgs g →
       IsStandardPackage importPath = false →
       HasPrefix importPath projectModule = false →
       HasPrefix importPath org = true →
       ∃ i, getOrgs g !! i = Some org ∧
            classifyImport IsStandardPackage g importPath projectModule
              = OrgGroupBase + Z.of_nat i).
Proof.
  intros H.
  destruct (H Sample.IsStandardPackage
              (Sample.G ["github.com/my"; "github.com/myorg"] "github.com/test/project" false)
              "github.com/myorg" "github.com/myorgextra/lib" "github.com/test/project")
    as (i & Hi & Hgroup); [set_solver|done..|].
  destruct i as [|[|i]]; [discriminate Hi| |discriminate Hi].
  vm_compute in Hgroup. discriminate Hgroup.
Qed.

Lemma org_prefix_plain_first_match_witness :
  classifyImport Sample.IsStandardPackage
    (Sample.G ["gitlab.com/anotherorg"; "github.com/myorg"] "github.com/test/project" false)
    "github.com/myorgextra/lib" "github.com/test/project" = OrgGroupBase + Z.of_nat 1 ∧
  getOrgInfo (Sample.G ["gitlab.com/anotherorg"; "github.com/myorg"] "github.com/test/project" false)
    "github.com/myorgextra/lib" = (Z.of_nat 1, uptoSlash (stripLeadingSlash "extra/lib")).
Proof.
  apply (org_prefix_plain_first_match Sample.IsStandardPackage _ _ _ 1%nat "github.com/myorg");
    [reflexivity| |reflexivity..].
  intros [|j] q Hj Hq; [|lia]. injection Hq as <-. reflexivity.
Defined.

(** ** The extractor *)

Section extractor_facts.
Context (CommentGroup_Text : ast.CommentGroup → string).

Local Abbreviation importOf := (importOfSpec CommentGroup_Text).
Local Abbreviation firsts := (firstOccurrences CommentGroup_Text).

Lemma extractImports_loop_firsts specs (seen : gmap string bool) seenl imports :
  (∀ path, default false (seen !! path) = true ↔ path ∈ seenl) →
  Forall (λ importSpec, is_Some (ast.Path importSpec)) specs →
  extractImports_loop CommentGroup_Text specs seen imports
    = Some (imports ++ firsts seenl specs).
Proof.
  intros Hseen Hspecs. revert seen seenl imports Hseen.
  induction Hspecs as [|importSpec rest [value Hvalue] _ IH];
    intros seen seenl imports Hseen; simpl.
  { by rewrite app_nil_r. }
  unfold specPath. rewrite Hvalue. simpl.
  destruct (default false (seen !! Trim value dquote)) eqn:Hs.
  - rewrite bool_decide_eq_true_2 by by apply Hseen. by apply IH.
  - rewrite bool_decide_eq_false_2 by (rewrite <-Hseen; congruence).
    rewrite (IH _ (Trim value dquote :: seenl)).
    + by rewrite <-app_assoc.
    + intros path. rewrite elem_of_cons, <-Hseen.
      destruct (decide (Trim value dquote = path)) as [->|Hne].
      * rewrite lookup_insert_eq. simpl. tauto.
      * rewrite lookup_insert_ne by done. intuition congruence.
Qed.

Lemma firstOccurrences_paths seenl specs path :
  Forall (λ importSpec, is_Some (ast.Path importSpec)) specs →
  path ∈ Path <$> firsts seenl specs
  ↔ (¬ path ∈ seenl) ∧ (∃ importSpec, importSpec ∈ specs ∧ specPath importSpec = Some path).
Proof.
  intros Hspecs. revert seenl.
  induction Hspecs as [|importSpec rest [value Hvalue] _ IH]; intros seenl; simpl.
  { rewrite elem_of_nil. split; [done|]. intros [_ (? & []%elem_of_nil & _)]. }
  assert (specPath importSpec = Some (Trim value dquote)) as Hp
    by (unfold specPath; by rewrite Hvalue).
  rewrite Hp. case_bool_decide as Hin.
  - rewrite IH. split.
    + intros (? & s & ? & ?). split; [done|]. exists s. rewrite elem_of_cons. auto.
    + intros (Hn & s & [->|?]%elem_of_cons & Hs); [|by eauto].
      rewrite Hp in Hs. by simplify_eq.
  - rewrite fmap_cons, elem_of_cons, IH, not_elem_of_cons. simpl. split.
    + intros [->|((? & ?) & s & ? & ?)].
      * split; [done|]. exists importSpec. rewrite elem_of_cons. auto.
      * split; [done|]. exists s. rewrite elem_of_cons. auto.
    + intros (Hn & s & [->|?]%elem_of_cons & Hs).
      * rewrite Hp in Hs. left. by simplify_eq.
      * destruct (decide (path = Trim value dquote)); [by left|right]. eauto.
Qed.

Lemma firstOccurrences_NoDup seenl specs :
  Forall (λ importSpec, is_Some (ast.Path importSpec)) specs →
  NoDup (Path <$> firsts seenl specs).
Proof.
  intros Hspecs. revert seenl.
  induction Hspecs as [|importSpec rest [value Hvalue] Hrest IH]; intros seenl; simpl.
  { constructor. }
  unfold specPath at 1. rewrite Hvalue. simpl. case_bool_decide; [by apply IH|].
  rewrite fmap_cons. constructor; [|by apply IH]. simpl.
  rewrite firstOccurrences_paths by done. rewrite not_elem_of_cons. tauto.
Qed.

Lemma firstOccurrences_first seenl specs imp :
  Forall (λ importSpec, is_Some (ast.Path importSpec)) specs →
  imp ∈ firsts seenl specs →
  ∃ i importSpec,
    list_find (λ importSpec, specPath importSpec = Some (Path imp)) specs
      = Some (i, importSpec)
    ∧ imp = importOf (Path imp) importSpec.
Proof.
  intros Hspecs. revert seenl.
  induction Hspecs as [|importSpec rest [value Hvalue] Hrest IH]; intros seenl; simpl.
  { by intros ?%elem_of_nil. }
  assert (specPath importSpec = Some (Trim value dquote)) as Hp
    by (unfold specPath; by rewrite Hvalue).
  rewrite Hp. intros Hin.
  assert (imp = importOf (Trim value dquote) importSpec
          ∨ (Path imp ≠ Trim value dquote ∧ ∃ seenl', imp ∈ firsts seenl' rest))
    as [->|[Hne (seenl' & Hin')]].
  { case_bool_decide as Hseen.
    - right. split; [|by eauto]. intros Heq.
      assert (Path imp ∈ Path <$> firsts seenl rest) as Hpin
        by (apply list_elem_of_fmap; eauto).
      apply firstOccurrences_paths in Hpin as [Hn _]; [|done]. congruence.
    - apply elem_of_cons in Hin as [->|Hin]; [by left|right]. split; [|by eauto].
      intros Heq.
      assert (Path imp ∈ Path <$> firsts (Trim value dquote :: seenl) rest) as Hpin
        by (apply list_elem_of_fmap; eauto).
      apply firstOccurrences_paths in Hpin as [Hn _]; [|done].
      apply Hn. rewrite Heq. by left. }
  - exists 0%nat, importSpec. simpl. by rewrite decide_True.
  - destruct (IH _ Hin') as (i & s & Hfind & Himp).
    exists (S i), s. split; [|done]. simpl. rewrite decide_False.
    + by rewrite Hfind.
    + congruence.
Qed.

Lemma extractImports_firsts (file : ast.File) :
  Forall (λ importSpec, is_Some (ast.Path importSpec)) (ast.Imports file) →
  extractImports CommentGroup_Text file = Some (firsts [] (ast.Imports file)).
Proof.
  intros Hspecs. unfold extractImports.
  rewrite (extractImports_loop_firsts _ _ []); [done| |done].
  intros path. rewrite lookup_empty, elem_of_nil. simpl. intuition congruence.
Qed.

End extractor_facts.

(** ** Quotes around a path *)

Section trim_facts.
Variable cutset : string.

Lemma TrimLeft_length s : (String.length (TrimLeft s cutset) ≤ String.length s)%nat.
Proof. induction s as [|c s IH]; simpl; [done|]. destruct (in_cutset c cutset); simpl; lia. Qed.

Lemma TrimRight_length s : (String.length (TrimRight s cutset) ≤ String.length s)%nat.
Proof.
  induction s as [|c s IH]; simpl; [done|].
  destruct (TrimRight s cutset); [destruct (in_cutset c cutset)|]; simpl in *; lia.
Qed.

Lemma TrimRight_idemp s : TrimRight (TrimRight s cutset) cutset = TrimRight s cutset.
Proof.
  induction s as [|c s IH]; simpl; [done|].
  destruct (TrimRight s cutset) as [|d t] eqn:Ht.
  - destruct (in_cutset c cutset) eqn:Hc; simpl; [done|]. by rewrite Hc.
  - change (TrimRight (String c (String d t)) cutset = String c (String d t)).
    simpl TrimRight at 1. simpl in IH. by rewrite IH.
Qed.

(** The head of a string survives [TrimRight] unless nothing does. *)
Lemma TrimRight_head c s :
  TrimRight (String c s) cutset = ""
  ∨ ∃ t, TrimRight (String c s) cutset = String c t.
Proof.
  simpl. destruct (TrimRight s cutset); [destruct (in_cutset c cutset)|]; eauto.
Qed.

Lemma TrimLeft_fixed c s : in_cutset c cutset = false → TrimLeft (String c s) cutset = String c s.
Proof. intros H. simpl. by rewrite H. Qed.

Lemma TrimLeft_head s :
  match TrimLeft s cutset with
  | String c _ => in_cutset c cutset = false
  | EmptyString => True
  end.
Proof. induction s as [|c s IH]; simpl; [done|]. by destruct (in_cutset c cutset) eqn:Hc. Qed.

Lemma Trim_idemp s : Trim (Trim s cutset) cutset = Trim s cutset.
Proof.
  unfold Trim. pose proof (TrimLeft_head s) as Hh.
  destruct (TrimLeft s cutset) as [|c t]; [done|].
  destruct (TrimRight_head c t) as [->|[u Hu]]; [done|].
  rewrite Hu, TrimLeft_fixed by done. by rewrite <-Hu, TrimRight_idemp.
Qed.

(** A string that [Trim] leaves alone starts and ends outside the cutset. *)
Lemma Trim_fixed_parts s :
  Trim s cutset = s → TrimLeft s cutset = s ∧ TrimRight s cutset = s.
Proof.
  unfold Trim. intros H.
  assert (TrimLeft s cutset = s) as Hl.
  { destruct s as [|c s]; [done|]. simpl in *.
    destruct (in_cutset c cutset); [|done].
    pose proof (TrimRight_length (TrimLeft s cutset)) as H1.
    pose proof (TrimLeft_length s) as H2. rewrite H in H1. simpl in H1. lia. }
  split; [done|]. by rewrite Hl in H.
Qed.

Lemma TrimRight_snoc s d :
  in_cutset d cutset = true →
  TrimRight (s +:+ String d "") cutset = TrimRight s cutset.
Proof.
  intros Hd. induction s as [|c s IH].
  - simpl. by rewrite Hd.
  - rewrite app_cons. simpl. by rewrite IH.
Qed.

Lemma Trim_wrapped s d :
  in_cutset d cutset = true →
  Trim s cutset = s →
  Trim (String d "" +:+ s +:+ String d "") cutset = s.
Proof.
  intros Hd [Hl Hr]%Trim_fixed_parts. unfold Trim.
  rewrite app_cons, app_empty_l. simpl TrimLeft. rewrite Hd.
  destruct s as [|c s].
  - rewrite app_empty_l. simpl. by rewrite Hd.
  - simpl in Hl. destruct (in_cutset c cutset) eqn:Hc.
    + pose proof (TrimLeft_length s) as Hlen. rewrite Hl in Hlen. simpl in Hlen. lia.
    + rewrite app_cons, TrimLeft_fixed by done.
      by rewrite <-app_cons, TrimRight_snoc.
Qed.
End trim_facts.

(** The paths [extractImports] records carry no quote at either end. *)
Lemma firstOccurrences_trimmed CommentGroup_Text seenl specs :
  Forall (λ imp, Trim (Path imp) dquote = Path imp)
         (firstOccurrences CommentGroup_Text seenl specs).
Proof.
  revert seenl. induction specs as [|importSpec specs IH]; intros seenl; simpl; [done|].
  unfold specPath. destruct (ast.Path importSpec) as [value|]; simpl; [|done].
  case_bool_decide; [done|]. constructor; [|done]. simpl. apply Trim_idemp.
Qed.

Lemma Trim_importSpecOf_path imp :
  Trim (Path imp) dquote = Path imp →
  Trim (dquote +:+ Path imp +:+ dquote) dquote = Path imp.
Proof. by apply Trim_wrapped. Qed.

(** ** Blank lines between import entries *)

Section spacing_facts.
Context (IsStandardPackage : string → bool).
Context (CommentGroup_Text : ast.CommentGroup → string) (TrimSpace : string → string).
Context {FileSet : Type}.
Implicit Types (g : formatter FileSet) (w : World) (entries : list Import).

Local Abbreviation shouldAdd := (shouldAddSpacingBetweenImports IsStandardPackage TrimSpace).
Local Abbreviation specLines :=
  (importSpecLines IsStandardPackage CommentGroup_Text TrimSpace).
Local Abbreviation wellClassified := (classified IsStandardPackage TrimSpace).

(** In [groupImports] as [ProcessFileWithOutput] calls it, the project
    module is the one [getCurrentProject] resolves. *)
Lemma groupImports_projectModule g w :
  (if String.eqb (getCurrentProject TrimSpace g w) ""
   then utils.GetProjectModule TrimSpace w (getFilePath g)
   else getCurrentProject TrimSpace g w)
  = getCurrentProject TrimSpace g w.
Proof.
  destruct (String.eqb_spec (getCurrentProject TrimSpace g w) "") as [Heq|]; [|done].
  unfold getCurrentProject in *.
  destruct (String.eqb (CurrentProject (config g)) "") eqn:Hc; [done|].
  apply String.eqb_neq in Hc. congruence.
Qed.

(** The records [groupImports] files in its table satisfy the invariant. *)
Lemma assignGroup_classified g w imp :
  Trim (Path imp) dquote = Path imp →
  wellClassified g w
    (assignGroup IsStandardPackage g (getCurrentProject TrimSpace g w) imp).
Proof.
  intros Htrim. unfold classified, assignGroup.
  destruct (OrgGroupBase <=? _) eqn:Horg.
  - destruct (getOrgInfo g (Path imp)) as [orgIndex projectName] eqn:Hinfo. simpl.
    by rewrite Hinfo.
  - simpl. split_and!; [done..|]. apply Z.leb_gt in Horg. lia.
Qed.

Lemma shouldAdd_spec g w entries i prev cur :
  Forall (wellClassified g w) entries →
  entries !! i = Some prev →
  entries !! S i = Some cur →
  shouldAdd g w (specsOf entries) (S i) = true ↔ spacerBetween prev cur.
Proof.
  intros Hwf Hprev Hcur.
  destruct (Forall_lookup_1 _ _ _ _ Hwf Hprev) as (Htp & Hgp & Hnp).
  destruct (Forall_lookup_1 _ _ _ _ Hwf Hcur) as (Htc & Hgc & Hnc).
  unfold shouldAddSpacingBetweenImports, spacerBetween.
  rewrite !list_lookup_fmap, Hprev, Hcur. simpl.
  rewrite !Trim_importSpecOf_path by done. rewrite <-Hgp, <-Hgc.
  destruct (Z.eqb_spec (Group cur) (Group prev)) as [Heq|Hne]; simpl; [|by split; auto].
  destruct (Z.leb_spec OrgGroupBase (Group cur)) as [Horg|Hnorg].
  - rewrite <-Hnp, <-Hnc by lia.
    rewrite !andb_true_iff, !negb_true_iff, !String.eqb_neq. split.
    + intros [[? ?] ?]. right. split_and!; [lia..|done|done|done].
    + intros [?|(_ & _ & ? & ? & ?)]; [done|by auto].
  - split; [done|]. intros [?|(? & _)]; [done|lia].
Qed.

End spacing_facts.

(** ** Orders and sorting within a group *)

Lemma ltb_le_ne s t : String.ltb s t = true ↔ String.le s t ∧ s ≠ t.
Proof.
  split.
  - intros H. split; [by apply ltb_le|by apply ltb_neq].
  - intros [Hle Hne]. apply ltb_true_nle. intros Hts.
    apply Hne. by apply (anti_symm String.le).
Qed.

Lemma ltb_trans s t u :
  String.ltb s t = true → String.ltb t u = true → String.ltb s u = true.
Proof.
  rewrite !ltb_le_ne. intros [H1 N1] [H2 N2]. split; [by trans t|].
  intros ->. apply N1. by apply (anti_symm String.le).
Qed.

Global Instance pathLe_trans : Transitive pathLe.
Proof. intros a b c. unfold pathLe. apply transitivity. Qed.

Global Instance pathLe_total : Total pathLe.
Proof. intros a b. unfold pathLe. apply (total String.le). Qed.

Lemma lessPath_pathLe a b : lessPath b a = false ↔ pathLe a b.
Proof. apply ltb_false_le. Qed.

Global Instance orgLe_trans : Transitive orgLe.
Proof.
  intros a b c [Hab|[Hab Pab]] [Hbc|[Hbc Pbc]].
  - left. by eapply ltb_trans.
  - left. by rewrite <-Hbc.
  - left. by rewrite Hab.
  - right. split; [congruence|by trans (Path b)].
Qed.

Global Instance orgLe_total : Total orgLe.
Proof.
  intros a b. unfold orgLe.
  destruct (decide (ProjectName a = ProjectName b)) as [Heq|Hne].
  - destruct (total String.le (Path a) (Path b)); [left|right]; right; by split.
  - destruct (ltb_total _ _ Hne); [left|right]; by left.
Qed.

Lemma lessOrg_orgLe a b : lessOrg b a = false ↔ orgLe a b.
Proof.
  unfold lessOrg, orgLe.
  destruct (String.eqb_spec (ProjectName b) (ProjectName a)) as [Heq|Hne]; simpl.
  - rewrite ltb_false_le, Heq, ltb_irrefl. intuition congruence.
  - rewrite ltb_false_le, ltb_le_ne. intuition congruence.
Qed.

Global Instance keyLe_trans : Transitive keyLe.
Proof.
  intros a b c [Hab|[Hab Pab]] [Hbc|[Hbc Pbc]]; unfold keyLe.
  - left. lia.
  - left. lia.
  - left. lia.
  - right. split; [lia|by trans b.2].
Qed.

Global Instance keyLe_total : Total keyLe.
Proof.
  intros a b. unfold keyLe.
  destruct (Z.lt_trichotomy a.1 b.1) as [?|[?|?]]; [by left; left| |by right; left].
  destruct (total String.le a.2 b.2); [left|right]; right; by split.
Qed.

Lemma keyLe_antisym a b : keyLe a b → keyLe b a → a = b.
Proof.
  destruct a as [a1 a2], b as [b1 b2].
  intros [?|[? ?]] [?|[? ?]]; simpl in *; try lia.
  f_equal; [done|]. by apply (anti_symm String.le).
Qed.

Lemma lessOrgProject_keyLe a b : lessOrgProject b a = false ↔ keyLe a b.
Proof.
  unfold lessOrgProject, keyLe.
  destruct (Z.eqb_spec b.1 a.1) as [Heq|Hne]; simpl.
  - rewrite ltb_false_le. split; [intros ?; right; by split|]. intros [?|[_ ?]]; [lia|done].
  - rewrite Z.ltb_ge. split; [intros ?; left; lia|]. intros [?|[? _]]; lia.
Qed.

(** [sortImportsInGroup] rearranges the slice into the order of its group. *)
Lemma sortImportsInGroup_Permutation imports group :
  sortImportsInGroup imports group ≡ₚ imports.
Proof. unfold sortImportsInGroup. destruct (_ <=? _); apply sort_Slice_Permutation. Qed.

Lemma sortImportsInGroup_path imports group :
  group < OrgGroupBase → StronglySorted pathLe (sortImportsInGroup imports group).
Proof.
  intros Hg. unfold sortImportsInGroup.
  rewrite (proj2 (Z.leb_gt _ _)) by done.
  apply sort_Slice_sorted; [apply _..|]. apply lessPath_pathLe.
Qed.

Lemma sortImportsInGroup_org imports group :
  OrgGroupBase ≤ group → StronglySorted orgLe (sortImportsInGroup imports group).
Proof.
  intros Hg. unfold sortImportsInGroup.
  rewrite (proj2 (Z.leb_le _ _)) by done.
  apply sort_Slice_sorted; [apply _..|]. apply lessOrg_orgLe.
Qed.

Lemma NoDup_fmap_eq {A B} (f : A → B) (l : list A) x y :
  NoDup (f <$> l) → x ∈ l → y ∈ l → f x = f y → x = y.
Proof.
  induction l as [|z l IH]; [by intros _ ?%elem_of_nil|].
  rewrite fmap_cons, NoDup_cons, !elem_of_cons.
  intros [Hz Hnd] [->|Hx] [->|Hy] Heq; [done| | |by apply IH].
  - destruct Hz. rewrite Heq. by apply list_elem_of_fmap_2.
  - destruct Hz. rewrite <-Heq. by apply list_elem_of_fmap_2.
Qed.

(** On a slice with pairwise distinct paths, which is what [extractImports]
    hands on, the sorted slice is the same whatever sorting procedure
    [sort.Slice] runs: any rearrangement in the order of the group is the
    one of the model. *)
Lemma sortImportsInGroup_unique imports group sorted :
  NoDup (Path <$> imports) →
  sorted ≡ₚ imports →
  StronglySorted (if OrgGroupBase <=? group then orgLe else pathLe) sorted →
  sorted = sortImportsInGroup imports group.
Proof.
  intros Hnd Hperm Hsorted. unfold sortImportsInGroup.
  destruct (OrgGroupBase <=? group).
  - apply (sort_Slice_unique lessOrg orgLe); [apply lessOrg_orgLe| |done..].
    intros x y Hx Hy [Hlt|[Heq Hle]] [Hlt'|[Heq' Hle']].
    + pose proof (ltb_trans _ _ _ Hlt Hlt') as Hxx. by rewrite ltb_irrefl in Hxx.
    + apply ltb_le_ne in Hlt as [_ Hne]. congruence.
    + apply ltb_le_ne in Hlt' as [_ Hne]. congruence.
    + apply (NoDup_fmap_eq Path imports); [done..|]. by apply (anti_symm String.le).
  - apply (sort_Slice_unique lessPath pathLe); [apply lessPath_pathLe| |done..].
    intros x y Hx Hy Hle Hle'.
    apply (NoDup_fmap_eq Path imports); [done..|]. by apply (anti_symm String.le).
Qed.

(** ** Buckets: maps of slices filled by [append] *)

Section bucket_facts.
Context {K : Type} `{Countable K} (key : Import → K).

Local Abbreviation fill :=
  (foldl (λ (m : gmap K (list Import)) imp, <[key imp := at_key m (key imp) ++ [imp]]> m)).

Lemma fill_at_key imports (m : gmap K (list Import)) k :
  at_key (fill m imports) k = at_key m k ++ filter (λ imp, key imp = k) imports.
Proof.
  revert m. induction imports as [|imp imports IH]; intros m; simpl.
  { by rewrite app_nil_r. }
  rewrite IH, filter_cons. unfold at_key at 1.
  destruct (decide (key imp = k)) as [<-|Hne].
  - rewrite lookup_insert_eq. simpl. by rewrite <-app_assoc.
  - by rewrite lookup_insert_ne.
Qed.

Lemma fill_lookup_is_Some imports (m : gmap K (list Import)) k :
  is_Some (fill m imports !! k) ↔ is_Some (m !! k) ∨ ∃ imp, imp ∈ imports ∧ key imp = k.
Proof.
  revert m. induction imports as [|imp imports IH]; intros m; simpl.
  { split; [by left|]. intros [?|(? & []%elem_of_nil & _)]; done. }
  rewrite IH. destruct (decide (key imp = k)) as [<-|Hne].
  - rewrite lookup_insert_eq. split; [|by eauto].
    intros _. right. exists imp. split; [by left|done].
  - rewrite lookup_insert_ne by done. split.
    + intros [?|(x & ? & ?)]; [by left|]. right. exists x. split; [by right|done].
    + intros [?|(x & [->|?]%elem_of_cons & ?)]; [by left|done|]. right. eauto.
Qed.

(** Emitting the buckets of a duplicate-free list of keys that covers the
    slice rearranges the slice. *)
Lemma buckets_Permutation (keys : list K) imports :
  NoDup keys →
  (∀ imp, imp ∈ imports → key imp ∈ keys) →
  keys ≫= (λ k, filter (λ imp, key imp = k) imports) ≡ₚ imports.
Proof.
  intros Hnd Hcover.
  assert (∀ keys, NoDup keys →
    keys ≫= (λ k, filter (λ imp, key imp = k) imports)
      ≡ₚ filter (λ imp, key imp ∈ keys) imports) as Hgen.
  { clear. intros keys. induction 1 as [|k keys Hk _ IH]; simpl.
    - induction imports as [|imp imports IHi]; [done|].
      rewrite filter_cons. by rewrite decide_False by apply not_elem_of_nil.
    - rewrite IH. clear IH. induction imports as [|imp imports IHi]; [done|].
      rewrite !filter_cons.
      destruct (decide (key imp = k)) as [Heq|Hne].
      + rewrite decide_False by congruence.
        rewrite decide_True by (rewrite Heq; by left). simpl. by f_equiv.
      + destruct (decide (key imp ∈ keys)) as [Hin|Hnin].
        * rewrite decide_True by by right.
          rewrite <-Permutation_middle. by f_equiv.
        * rewrite decide_False; [done|].
          by intros [?|?]%elem_of_cons. }
  rewrite Hgen by done. clear Hgen.
  induction imports as [|imp imports IH]; [done|].
  rewrite filter_cons, decide_True by (apply Hcover; by left).
  f_equiv. apply IH. intros x Hx. apply Hcover. by right.
Qed.
End bucket_facts.

(** ** The grouped-import table *)

Section table_facts.
Context (IsStandardPackage : string → bool) (TrimSpace : string → string).
Context {FileSet : Type}.
Implicit Types (g : formatter FileSet) (w : World) (imports : list Import).

Local Abbreviation assign := (assignGroup IsStandardPackage).
Local Abbreviation table := (groupImports IsStandardPackage TrimSpace).
Local Abbreviation projectModuleOf := (projectModuleOf TrimSpace).

Lemma assignGroup_Group g projectModule imp :
  Group (assign g projectModule imp)
    = classifyImport IsStandardPackage g (Path imp) projectModule.
Proof.
  unfold assignGroup. destruct (_ <=? _); [|done]. by destruct (getOrgInfo _ _).
Qed.

Lemma assignGroup_OrgIndex g projectModule imp :
  OrgGroupBase ≤ Group (assign g projectModule imp) →
  Group (assign g projectModule imp)
    = OrgGroupBase + OrgIndex (assign g projectModule imp).
Proof.
  rewrite assignGroup_Group. intros Horg.
  rewrite (classifyImport_org_getOrgInfo _ _ _ _ Horg).
  unfold assignGroup. rewrite (proj2 (Z.leb_le _ _)) by done.
  by destruct (getOrgInfo _ _).
Qed.

(** What [m[group]] holds in the table: the records classified into the
    group, in the order of the group. *)
Lemma groupImports_at_key g w imports filePath group :
  at_key (table g w imports filePath) group
    = sortImportsInGroup
        (filter (λ imp, Group imp = group)
                (assign g (projectModuleOf g w filePath) <$> imports))
        group.
Proof.
  unfold groupImports.
  change (if String.eqb (getCurrentProject TrimSpace g w) ""
          then utils.GetProjectModule TrimSpace w filePath
          else getCurrentProject TrimSpace g w)
    with (projectModuleOf g w filePath).
  set (pm := projectModuleOf g w filePath).
  pose proof (fill_at_key Group (assign g pm <$> imports) ∅ group) as Hfill.
  rewrite foldl_fmap in Hfill. unfold at_key at 1. rewrite map_lookup_imap.
  change (at_key (∅ : gmap Z (list Import)) group) with (@nil Import) in Hfill.
  simpl in Hfill. rewrite <-Hfill. unfold at_key.
  destruct (foldl _ _ _ !! group) as [l|]; simpl; [done|].
  unfold sortImportsInGroup. by destruct (_ <=? _).
Qed.
(** Every record of the table [ProcessFileWithOutput] builds satisfies the
    invariant of classified records. *)
Lemma groupImports_classified g w imports group :
  Forall (λ imp, Trim (Path imp) dquote = Path imp) imports →
  Forall (classified IsStandardPackage TrimSpace g w)
         (at_key (table g w imports (getFilePath g)) group).
Proof.
  intros Htrim. rewrite groupImports_at_key, sortImportsInGroup_Permutation.
  unfold projectModuleOf. rewrite groupImports_projectModule.
  apply Forall_forall. intros imp [_ Himp]%list_elem_of_filter.
  apply list_elem_of_fmap in Himp as (imp0 & -> & Himp0).
  apply assignGroup_classified. by eapply Forall_forall in Htrim.
Qed.
End table_facts.

(** ** The re-emitter *)


Lemma addGroupImports_spec importDecl imports :
  addGroupImports importDecl imports
    = ast.mkGenDecl (ast.Tok importDecl) (ast.Lparen importDecl)
        (ast.Specs importDecl ++ specsOf imports).
Proof.
  revert importDecl. induction imports as [|imp imports IH]; intros [tok lparen specs]; simpl.
  - by rewrite app_nil_r.
  - rewrite IH. simpl. by rewrite <-app_assoc.
Qed.

Lemma addGroupImports_buckets {K} importDecl (keys : list K) (bucket : K → list Import) :
  foldl (λ importDecl key, addGroupImports importDecl (bucket key)) importDecl keys
    = ast.mkGenDecl (ast.Tok importDecl) (ast.Lparen importDecl)
        (ast.Specs importDecl ++ specsOf (keys ≫= bucket)).
Proof.
  revert importDecl. induction keys as [|key keys IH]; intros [tok lparen specs]; simpl.
  - by rewrite app_nil_r.
  - rewrite IH, addGroupImports_spec. simpl. by rewrite fmap_app, app_assoc.
Qed.

Lemma StronglySorted_filter {A} (R : relation A) (P : A → Prop) `{∀ x, Decision (P x)} l :
  StronglySorted R l → StronglySorted R (filter P l).
Proof.
  induction 1 as [|x l _ IH Hx]; [constructor|].
  rewrite filter_cons. destruct (decide (P x)); [|done].
  constructor; [done|]. rewrite Forall_forall in Hx |- *.
  intros y [_ Hy]%list_elem_of_filter. by apply Hx.
Qed.

(** The buckets of an organization group, emitted in key order, keep the
    order of the group. *)
Lemma buckets_sorted orgIndex (keys : list (Z * string)) imports :
  StronglySorted keyLe keys → NoDup keys →
  Forall (λ imp, OrgIndex imp = orgIndex) imports →
  StronglySorted orgLe imports →
  StronglySorted orgLe (keys ≫= (λ k, filter (λ imp, orgProject imp = k) imports)).
Proof.
  intros Hkeys Hnd Hidx Himports.
  induction Hkeys as [|k keys _ IH Hk]; [constructor|].
  apply NoDup_cons in Hnd as [Hnk Hnd]. rewrite bind_cons.
  apply StronglySorted_app_2; [|by apply StronglySorted_filter|by apply IH].
  intros x1 x2 [Hk1 Hx1]%list_elem_of_filter Hx2.
  apply list_elem_of_bind in Hx2 as (k2 & [Hk2 Hx2]%list_elem_of_filter & Hin2).
  rewrite Forall_forall in Hk. rewrite Forall_forall in Hidx.
  pose proof (Hk _ Hin2) as Hle.
  assert (k ≠ k2) as Hne by (by intros ->).
  subst k k2. unfold orgProject, keyLe in *. simpl in *.
  rewrite (Hidx _ Hx1), (Hidx _ Hx2) in *.
  destruct Hle as [?|[_ Hle]]; [lia|]. left. apply ltb_le_ne. split; [done|congruence].
Qed.

Lemma addOrgImports_spec importDecl imports :
  ∃ emitted,
    addOrgImports importDecl imports
      = ast.mkGenDecl (ast.Tok importDecl) (ast.Lparen importDecl)
          (ast.Specs importDecl ++ specsOf emitted)
    ∧ emitted ≡ₚ imports
    ∧ (∀ orgIndex, Forall (λ imp, OrgIndex imp = orgIndex) imports →
         StronglySorted orgLe imports → StronglySorted orgLe emitted).
Proof.
  unfold addOrgImports. destruct (length imports =? 0)%nat eqn:Hlen.
  { apply Nat.eqb_eq, nil_length_inv in Hlen as ->. exists [].
    destruct importDecl. simpl. by rewrite app_nil_r. }
  set (projectGroups := foldl _ ∅ imports).
  set (keys := sort_Slice lessOrgProject (map_to_list projectGroups).*1).
  assert (∀ k, at_key projectGroups k = filter (λ imp, orgProject imp = k) imports) as Hat.
  { intros k. etrans; [apply (fill_at_key orgProject imports ∅ k)|].
    unfold at_key. by rewrite lookup_empty. }
  assert (keys ≡ₚ (map_to_list projectGroups).*1) as Hperm
    by apply sort_Slice_Permutation.
  assert (NoDup keys) as Hnd.
  { rewrite Hperm. apply NoDup_fst_map_to_list. }
  assert (StronglySorted keyLe keys) as Hsorted.
  { apply sort_Slice_sorted; [apply _..|]. apply lessOrgProject_keyLe. }
  exists (keys ≫= (λ k, filter (λ imp, orgProject imp = k) imports)). split_and!.
  - rewrite addGroupImports_buckets. do 2 f_equal. f_equal.
    clear -Hat. induction keys as [|k keys IH]; [done|].
    by rewrite !bind_cons, Hat, IH.
  - apply buckets_Permutation; [done|]. intros imp Himp. rewrite Hperm.
    apply list_elem_of_fmap. 
    assert (is_Some (projectGroups !! orgProject imp)) as [l Hl].
    { apply (fill_lookup_is_Some orgProject). right. eauto. }
    exists (orgProject imp, l). split; [done|]. by apply elem_of_map_to_list.
  - intros orgIndex Hidx Himports. by eapply buckets_sorted.
Qed.

Lemma nonEmpty_false {A} (x : list A) : nonEmpty x = false → x = [].
Proof. destruct x; [done|]. by unfold nonEmpty. Qed.

Lemma addGroupImports_if importDecl imports :
  (if nonEmpty imports then addGroupImports importDecl imports else importDecl)
    = addGroupImports importDecl imports.
Proof. destruct (nonEmpty imports) eqn:Hn; [done|]. by apply nonEmpty_false in Hn as ->. Qed.

Lemma addOrgImports_if importDecl imports :
  (if nonEmpty imports then addOrgImports importDecl imports else importDecl)
    = addOrgImports importDecl imports.
Proof. destruct (nonEmpty imports) eqn:Hn; [done|]. by apply nonEmpty_false in Hn as ->. Qed.

Section reemitter_facts.
Context (IsStandardPackage : string → bool) (TrimSpace : string → string).
Context {FileSet : Type}.
Implicit Types (g : formatter FileSet) (w : World) (imports : list Import).

Local Abbreviation assign := (assignGroup IsStandardPackage).
Local Abbreviation table := (groupImports IsStandardPackage TrimSpace).
Local Abbreviation projectModuleOf := (projectModuleOf TrimSpace).

(** The loop over the configured organizations. *)
Lemma replaceImports_orgs (groupedImports : gmap Z (list Import)) importDecl n :
  ∃ orgs,
    foldl (λ importDecl i,
             let orgGroup := OrgGroupBase + Z.of_nat i in
             let imports := at_key groupedImports orgGroup in
             if nonEmpty imports then addOrgImports importDecl imports else importDecl)
          importDecl (seq 0 n)
      = ast.mkGenDecl (ast.Tok importDecl) (ast.Lparen importDecl)
          (ast.Specs importDecl ++ specsOf (concat orgs))
    ∧ length orgs = n
    ∧ ∀ i emitted, orgs !! i = Some emitted →
        let imports := at_key groupedImports (OrgGroupBase + Z.of_nat i) in
        emitted ≡ₚ imports
        ∧ (∀ orgIndex, Forall (λ imp, OrgIndex imp = orgIndex) imports →
             StronglySorted orgLe imports → StronglySorted orgLe emitted).
Proof.
  induction n as [|n (orgs & Hfold & Hlen & Horgs)].
  { exists []. destruct importDecl. simpl. rewrite app_nil_r. split_and!; [done..|].
    intros i emitted Hi. by rewrite lookup_nil in Hi. }
  rewrite seq_S, foldl_app, Hfold. simpl. rewrite addOrgImports_if.
  destruct (addOrgImports_spec
              (ast.mkGenDecl (ast.Tok importDecl) (ast.Lparen importDecl)
                 (ast.Specs importDecl ++ specsOf (concat orgs)))
              (at_key groupedImports (OrgGroupBase + Z.of_nat n)))
    as (emitted & -> & Hperm & Hsorted).
  exists (orgs ++ [emitted]). simpl. split_and!.
  - by rewrite concat_app, fmap_app, <-app_assoc, concat_cons, app_nil_r.
  - rewrite length_app. simpl. lia.
  - intros i e Hi. apply lookup_app_Some in Hi as [Hi|[Hge Hi]]; [by apply Horgs|].
    rewrite Hlen in *. apply list_lookup_singleton_Some in Hi as [Hi ->].
    replace i with n by lia. by split.
Qed.

Lemma hasOrgImports_true g (groupedImports : gmap Z (list Import)) i :
  (i < length (getOrgs g))%nat →
  at_key groupedImports (OrgGroupBase + Z.of_nat i) ≠ [] →
  hasOrgImports g groupedImports = true.
Proof.
  intros Hi Hne. unfold hasOrgImports. apply existsb_exists. exists i. split.
  - apply in_seq. lia.
  - destruct (at_key _ _); [done|]. by unfold nonEmpty.
Qed.

Lemma groupImports_member g w imports filePath imp :
  imp ∈ imports →
  let imp' := assign g (projectModuleOf g w filePath) imp in
  imp' ∈ at_key (table g w imports filePath) (Group imp').
Proof.
  intros Himp imp'. rewrite groupImports_at_key, sortImportsInGroup_Permutation.
  apply list_elem_of_filter. split; [done|]. by apply list_elem_of_fmap_2.
Qed.

(** A table built from at least one import makes [replaceImports]
    synthesize a declaration. *)
Lemma groupImports_hasImports g w imports filePath :
  imports ≠ [] →
  let groupedImports := table g w imports filePath in
  nonEmpty (at_key groupedImports StdGroup)
  || nonEmpty (at_key groupedImports ThirdPartyGroup)
  || nonEmpty (at_key groupedImports ProjectGroup)
  || hasOrgImports g groupedImports = true.
Proof.
  destruct imports as [|imp imports]; [done|]. intros _ groupedImports.
  pose proof (groupImports_member g w (imp :: imports) filePath imp) as Hin.
  specialize (Hin ltac:(by left)). simpl in Hin. fold groupedImports in Hin.
  rewrite assignGroup_Group in Hin.
  destruct (classifyImport_range IsStandardPackage g (Path imp)
              (projectModuleOf g w filePath)) as [Hg|[Hg|[Hg|(i & org & Hi & Hg)]]];
    rewrite Hg in Hin.
  - destruct (at_key groupedImports StdGroup); [by apply elem_of_nil in Hin|done].
  - destruct (at_key groupedImports ThirdPartyGroup); [by apply elem_of_nil in Hin|].
    by rewrite orb_true_r.
  - destruct (at_key groupedImports ProjectGroup); [by apply elem_of_nil in Hin|].
    unfold nonEmpty at 3. simpl. by rewrite orb_true_r.
  - rewrite (hasOrgImports_true g groupedImports i).
    + by rewrite orb_true_r.
    + by apply lookup_lt_Some in Hi.
    + intros Hnil. rewrite Hnil in Hin. by apply elem_of_nil in Hin.
Qed.
End reemitter_facts.

Section reemitter_claims.
Context (IsStandardPackage : string → bool) (TrimSpace : string → string).
Context {FileSet : Type}.
Implicit Types (g : formatter FileSet) (w : World) (imports : list Import).

Local Abbreviation assign := (assignGroup IsStandardPackage).
Local Abbreviation table := (groupImports IsStandardPackage TrimSpace).
Local Abbreviation projectModuleOf := (projectModuleOf TrimSpace).

End reemitter_claims.

(** ** Serialization *)

Section serialization_facts.
Context (IsStandardPackage : string → bool).
Context (CommentGroup_Text : ast.CommentGroup → string) (TrimSpace : string → string).
Context {FileSet : Type}.
Implicit Types (g : formatter FileSet) (w : World) (lines : list string).

Local Abbreviation formatLines :=
  (formatFile_lines IsStandardPackage CommentGroup_Text TrimSpace).
Local Abbreviation spliced :=
  (splicedLines IsStandardPackage CommentGroup_Text TrimSpace).

Lemma formatFile_lines_found g w importDecl lines :
  formatLines g w importDecl lines true = lines.
Proof. induction lines as [|line lines IH]; simpl; [done|]. by rewrite IH. Qed.

(** The formatter's own part in the output of [formatFile]: the lines the
    printer produced for the import-free file pass through unchanged and in
    order; the only addition goes right below the first line that starts
    with the package keyword. *)
Lemma formatFile_lines_frame g w importDecl lines :
  match list_find (λ line, HasPrefix (TrimSpace line) "package " = true) lines with
  | Some (i, _) =>
      formatLines g w importDecl lines false
        = take (S i) lines ++ spliced g w importDecl ++ drop (S i) lines
  | None => formatLines g w importDecl lines false = lines
  end.
Proof.
  induction lines as [|line lines IH]; simpl; [done|].
  case_decide as Hp.
  - rewrite Hp. simpl. rewrite formatFile_lines_found.
    unfold splicedLines. simpl. do 2 f_equal.
  - apply not_true_is_false in Hp. rewrite Hp. simpl.
    destruct (list_find _ lines) as [[i l]|]; simpl; by rewrite IH.
Qed.
End serialization_facts.

(** ** The file and batch driver *)

Section driver_facts.
Context (IsStandardPackage : string → bool).
Context (CommentGroup_Text : ast.CommentGroup → string) (TrimSpace : string → string).
Context {FileSet : Type}.
Context (parser_ParseFile : FileSet → string → string → FileSet * (ast.File + error)).
Context (format_Node : FileSet → ast.File → string + error).
Implicit Types (g : formatter FileSet) (w : World).

Local Abbreviation processFile :=
  (ProcessFileWithOutput IsStandardPackage CommentGroup_Text TrimSpace
     parser_ParseFile format_Node).
Local Abbreviation processLoop :=
  (ProcessFiles_loop IsStandardPackage CommentGroup_Text TrimSpace
     parser_ParseFile format_Node).
Local Abbreviation processFiles :=
  (ProcessFiles IsStandardPackage CommentGroup_Text TrimSpace
     parser_ParseFile format_Node).
Local Abbreviation run :=
  (batchRun IsStandardPackage CommentGroup_Text TrimSpace
     parser_ParseFile format_Node).
Local Abbreviation announced := (announced TrimSpace).

(** C8.  A file that parses and has no imports is a success that writes
    nothing: the file system is left as it was in every mode, the formatter
    returns nil, and the only thing printed beside the optional
    current-project line is, outside in-place mode and when output is on,
    the source itself, byte for byte. *)
Theorem ProcessFileWithOutput_no_imports g verbose w src fset file :
  os_ReadFile w (getFilePath g) = inl src →
  parser_ParseFile (fileSet g) (getFilePath g) src = (fset, inl file) →
  ast.Imports file = [] →
  ∃ w',
    processFile g verbose w = Some (mkFormatter (config g) fset, w', None)
    ∧ files w' = files w
    ∧ unwritable w' = unwritable w
    ∧ stdout w' =
        stdout (announced g verbose w)
        +:+ (if negb (getInPlace g) && verbose then src else "").
Proof.
  intros Hread Hparse Himports.
  assert (os_ReadFile (announced g verbose w) (getFilePath g) = inl src) as Hread'
    by (unfold announced; by destruct verbose).
  unfold ProcessFileWithOutput. fold (announced g verbose w).
  rewrite Hread', Hparse, Himports. simpl.
  pose proof app_empty_r as Happ.
  unfold getInPlace. simpl.
  destruct (InPlace (config g)); simpl.
  - eexists. split; [done|]. rewrite Happ. unfold announced. by destruct verbose.
  - destruct verbose; simpl.
    + eexists. split; [done|]. by simpl.
    + eexists. split; [done|]. by rewrite Happ.
Qed.

(** With a parser that keeps its contract the single-file transform never
    panics. *)
Lemma ProcessFileWithOutput_total g verbose w :
  parsesPaths parser_ParseFile →
  ∃ g' w' outcome, processFile g verbose w = Some (g', w', outcome).
Proof.
  intros Hparser. unfold ProcessFileWithOutput.
  destruct (os_ReadFile _ _) as [src|err]; [|by eauto].
  destruct (parser_ParseFile _ _ _) as [fset [file|err]] eqn:Hparse; [|by eauto].
  destruct (length (ast.Imports file) =? 0)%nat.
  { destruct (getInPlace _); [by eauto|]. destruct (negb _ && verbose); by eauto. }
  rewrite (extractImports_firsts CommentGroup_Text file) by by eapply Hparser.
  simpl.
  match goal with
  | |- context [formatFile ?a ?b ?c ?d ?e ?f ?h] =>
      destruct (formatFile a b c d e f h) as [output|err]; [|by eauto]
  end.
  destruct (getInPlace _); [destruct (os_WriteFile _ _ _); by eauto|].
  destruct verbose; by eauto.
Qed.

Lemma count_outcomes outcome outcomes :
  failures (outcome :: outcomes)
    = (if outcome is Some _ then 1 else 0) + failures outcomes
  ∧ successes (outcome :: outcomes)
    = (if outcome is Some _ then 0 else 1) + successes outcomes.
Proof.
  unfold failures, successes. rewrite !filter_cons.
  destruct outcome as [err|]; repeat case_decide; simpl length;
    first [lia | done | by exfalso; eauto using is_Some_None, mk_is_Some].
Qed.

(** The loop of [ProcessFiles] runs the batch to its end and counts. *)
Lemma ProcessFiles_loop_run g w filePaths processedCount errorCount :
  parsesPaths parser_ParseFile →
  ∃ outcomes g' w',
    run g w filePaths outcomes g' w'
    ∧ processLoop g w filePaths processedCount errorCount
      = Some (g', w', processedCount + successes outcomes, errorCount + failures outcomes).
Proof.
  intros Hparser. revert g w processedCount errorCount.
  induction filePaths as [|filePath rest IH]; intros g w processedCount errorCount.
  { exists [], g, w. split; [constructor|]. simpl. unfold successes, failures. simpl.
    by rewrite !Z.add_0_r. }
  destruct (ProcessFileWithOutput_total (setFilePath g filePath) false w Hparser)
    as (g1 & w1 & outcome & Hfile).
  simpl. rewrite Hfile. simpl.
  destruct (count_outcomes outcome []) as [_ _].
  destruct outcome as [err|].
  - destruct (IH g1 (reportFile g1 w1 filePath (Some err)) processedCount (errorCount + 1))
      as (outcomes & g2 & w2 & Hrun & Hloop).
    exists (Some err :: outcomes), g2, w2. split; [by econstructor|].
    simpl in Hloop. rewrite Hloop.
    destruct (count_outcomes (Some err) outcomes) as [-> ->]. f_equal. rewrite !pair_equal_spec. split_and!; [done|done|lia|lia].
  - destruct (IH g1 (reportFile g1 w1 filePath None) (processedCount + 1) errorCount)
      as (outcomes & g2 & w2 & Hrun & Hloop).
    exists (None :: outcomes), g2, w2. split; [by econstructor|].
    simpl in Hloop. rewrite Hloop.
    destruct (count_outcomes None outcomes) as [-> ->]. f_equal. rewrite !pair_equal_spec. split_and!; [done|done|lia|lia].
Qed.

Lemma batchRun_length g w filePaths outcomes g' w' :
  run g w filePaths outcomes g' w' → length outcomes = length filePaths.
Proof. induction 1; simpl; congruence. Qed.

Lemma outcomes_partition outcomes :
  successes outcomes + failures outcomes = Z.of_nat (length outcomes).
Proof.
  induction outcomes as [|outcome outcomes IH]; [done|].
  destruct (count_outcomes outcome outcomes) as [-> ->].
  destruct outcome; simpl length; lia.
Qed.

Lemma failures_pos outcomes :
  0 < failures outcomes ↔ ∃ i err, outcomes !! i = Some (Some err).
Proof.
  induction outcomes as [|outcome outcomes IH].
  { split; [done|]. by intros (i & err & ?). }
  destruct (count_outcomes outcome outcomes) as [-> _].
  destruct outcome as [err|].
  - split; [|unfold failures; lia]. intros _. by exists 0%nat, err.
  - rewrite Z.add_0_l, IH. split.
    + intros (i & err & Hi). by exists (S i), err.
    + intros ([|i] & err & Hi); [done|]. by exists i, err.
Qed.

End driver_facts.

(** ** The properties at the sample configuration *)

Lemma Sample_parsesPaths : parsesPaths Sample.ParseFile.
Proof.
  intros fset filename src fset' file. unfold Sample.ParseFile.
  destruct (String.eqb src Sample.mainSrc).
  { intros [= _ <-]. repeat constructor; by eexists. }
  destruct (String.eqb src Sample.plainSrc); [|done].
  intros [= _ <-]. constructor.
Qed.




Lemma ProcessFileWithOutput_no_imports_witness :
  let g := setFilePath (Sample.G [] "" true) "plain.go" in
  let w := Sample.world in
  os_ReadFile w (getFilePath g) = inl Sample.plainSrc
  ∧ Sample.ParseFile (fileSet g) (getFilePath g) Sample.plainSrc = (tt, inl Sample.plainFile)
  ∧ ast.Imports Sample.plainFile = []
  ∧ ∃ w',
      ProcessFileWithOutput Sample.IsStandardPackage
        Sample.CommentGroup_Text Sample.TrimSpace Sample.ParseFile Sample.format_Node
        g true w = Some (mkFormatter (config g) tt, w', None)
      ∧ files w' = files w
      ∧ unwritable w' = unwritable w
      ∧ stdout w' =
          stdout (announced Sample.TrimSpace g true w)
          +:+ (if negb (getInPlace g) && true then Sample.plainSrc else "").
Proof.
  intros g w.
  assert (os_ReadFile w (getFilePath g) = inl Sample.plainSrc) as Hread by reflexivity.
  assert (Sample.ParseFile (fileSet g) (getFilePath g) Sample.plainSrc
          = (tt, inl Sample.plainFile)) as Hparse by reflexivity.
  assert (ast.Imports Sample.plainFile = []) as Himports by reflexivity.
  split_and!; [exact Hread|exact Hparse|exact Himports|].
  exact (ProcessFileWithOutput_no_imports Sample.IsStandardPackage
           Sample.CommentGroup_Text Sample.TrimSpace Sample.ParseFile Sample.format_Node
           g true w Sample.plainSrc tt Sample.plainFile Hread Hparse Himports).
Defined.


(** ** The unit tests of the repository, replayed on the model *)

Example test_classifyImport :
  let g := Sample.G ["github.com/myorg"; "gitlab.com/anotherorg"] "" false in
  let classify := classifyImport Sample.IsStandardPackage g in
  classify "fmt" "github.com/myorg/myproject" = StdGroup
  ∧ classify "net/http" "github.com/myorg/myproject" = StdGroup
  ∧ classify "github.com/myorg/myproject/internal" "github.com/myorg/myproject" = ProjectGroup
  ∧ classify "github.com/myorg/otherproject" "github.com/myorg/myproject" = OrgGroupBase + 0
  ∧ classify "gitlab.com/anotherorg/project" "github.com/myorg/myproject" = OrgGroupBase + 1
  ∧ classify "github.com/external/lib" "github.com/myorg/myproject" = ThirdPartyGroup
  ∧ classify "golang.org/x/tools" "github.com/myorg/myproject" = ThirdPartyGroup.
Proof. vm_compute. by repeat split. Qed.

Example test_getOrgInfo :
  let g := Sample.G ["github.com/myorg"; "gitlab.com/anotherorg"] "" false in
  getOrgInfo g "github.com/myorg/project1" = (0, "project1")
  ∧ getOrgInfo g "github.com/myorg/project1/internal/pkg" = (0, "project1")
  ∧ getOrgInfo g "gitlab.com/anotherorg/project2/cmd/tool" = (1, "project2")
  ∧ getOrgInfo g "github.com/external/lib" = (-1, "")
  ∧ getOrgInfo g "github.com/myorg" = (0, "")
  ∧ getOrgInfo g "github.com/myorg/" = (0, "").
Proof. vm_compute. by repeat split. Qed.

Example test_sortImportsInGroup :
  Path <$> sortImportsInGroup
             [Sample.imp "strings"; Sample.imp "fmt"; Sample.imp "os"] StdGroup
    = ["fmt"; "os"; "strings"]
  ∧ Path <$> sortImportsInGroup
               [mkImport "" "github.com/myorg/project2/pkg" "" 0 0 "project2";
                mkImport "" "github.com/myorg/project1/cmd" "" 0 0 "project1";
                mkImport "" "github.com/myorg/project1/api" "" 0 0 "project1"]
               (OrgGroupBase + 0)
    = ["github.com/myorg/project1/api"; "github.com/myorg/project1/cmd";
       "github.com/myorg/project2/pkg"].
Proof. vm_compute. by split. Qed.

Example test_extractImports :
  extractImports Sample.CommentGroup_Text Sample.mainFile
    = Some [mkImport "" "github.com/external/lib" "" 0 0 "";
            mkImport "" "fmt" ("first" +:+ nl) 0 0 "";
            mkImport "" "github.com/myorg/project1" "" 0 0 ""].
Proof. reflexivity. Qed.

Example test_formatImportSpec :
  let format := formatImportSpec Sample.CommentGroup_Text Sample.TrimSpace in
  let lit := Some (dquote +:+ "fmt" +:+ dquote) in
  format (ast.mkImportSpec None lit None) = dquote +:+ "fmt" +:+ dquote
  ∧ format (ast.mkImportSpec (Some "f") lit None) = "f " +:+ dquote +:+ "fmt" +:+ dquote
  ∧ format (ast.mkImportSpec None lit (Some (ast.mkCommentGroup ["//   for formatting   "])))
    = dquote +:+ "fmt" +:+ dquote +:+ " // for formatting"
  ∧ format (ast.mkImportSpec None lit (Some (ast.mkCommentGroup ["//   "])))
    = dquote +:+ "fmt" +:+ dquote
  ∧ format (ast.mkImportSpec (Some "test") None None) = "test".
Proof. vm_compute. by repeat split. Qed.

(** The example of the specification: five imports, one organization, the
    project given; and what a second file of the batch run makes of the
    repeated path. *)
Example test_ProcessFile_in_place :
  let g := Sample.G ["github.com/myorg"] "github.com/test/project" true in
  (λ r, (files r.1.2 !! "main.go", r.2))
    <$> ProcessFile Sample.IsStandardPackage
          Sample.CommentGroup_Text Sample.TrimSpace Sample.ParseFile Sample.format_Node
          g Sample.world
  = Some
      (Some (String.concat nl
               ["package main"; "";
                "import (";
                String "009" (dquote +:+ "fmt" +:+ dquote +:+ " // first"); "";
                String "009" (dquote +:+ "github.com/external/lib" +:+ dquote); "";
                String "009" (dquote +:+ "github.com/myorg/project1" +:+ dquote);
                ")"; ""; "";
                "func main() {}"; ""]),
       None).
Proof. vm_compute. reflexivity. Qed.

Example test_GetProjectModule :
  let goMod := String.concat nl ["module github.com/test/project"; ""; "go 1.21"; ""] in
  let w := mkWorld (<["/tmp/grouper_test/go.mod" := goMod]> ∅) ∅ (Some "/work") "" in
  utils.GetProjectModule Sample.TrimSpace w "/tmp/grouper_test/internal/pkg/test.go"
    = "github.com/test/project"
  ∧ utils.GetProjectModule Sample.TrimSpace w "/non/existent/path/file.go" = ""
  ∧ utils.GetProjectModule Sample.TrimSpace w
      "/some/path/src/github.com/user/project/internal/file.go"
    = "github.com/user/project".
Proof. vm_compute. by repeat split. Qed.

(** * Further properties of the engine *)

(** ** The classifier and the organization sub-grouping *)

Section classifier_more.
Context (IsStandardPackage : string → bool) {FileSet : Type}.
Implicit Types (g : formatter FileSet) (importPath projectModule : string).

Local Abbreviation classify := (classifyImport IsStandardPackage).

(** X1.  The decision table of [classifyImport]: which paths land in which
    group.  The standard library wins over everything; the project prefix wins
    over the organizations; an organization takes a path when it is the first
    in configured order whose prefix the path starts with; the rest is
    third-party. *)
Theorem classifyImport_decision_table g importPath projectModule :
  (classify g importPath projectModule = StdGroup
     ↔ IsStandardPackage importPath = true)
  ∧ (classify g importPath projectModule = ProjectGroup
     ↔ IsStandardPackage importPath = false
       ∧ HasPrefix importPath projectModule = true)
  ∧ (∀ i, classify g importPath projectModule = OrgGroupBase + Z.of_nat i
     ↔ IsStandardPackage importPath = false
       ∧ HasPrefix importPath projectModule = false
       ∧ ∃ org, getOrgs g !! i = Some org
           ∧ HasPrefix importPath org = true
           ∧ ∀ j q, (j < i)%nat → getOrgs g !! j = Some q
               → HasPrefix importPath q = false)
  ∧ (classify g importPath projectModule = ThirdPartyGroup
     ↔ IsStandardPackage importPath = false
       ∧ HasPrefix importPath projectModule = false
       ∧ Forall (λ org, HasPrefix importPath org = false) (getOrgs g)).
Proof.
  unfold classifyImport, isStdImport, StdGroup, ProjectGroup, ThirdPartyGroup, OrgGroupBase.
  destruct (IsStandardPackage importPath) eqn:Hstd.
  { split_and!; [done|split; [lia|by intros [? _]]| |split; [lia|by intros [? _]]].
    intros i. split; [lia|by intros [? _]]. }
  destruct (HasPrefix importPath projectModule) eqn:Hproj.
  { split_and!; [split; [lia|done]|done| |split; [lia|by intros (_ & ? & _)]].
    intros i. split; [lia|by intros (_ & ? & _)]. }
  destruct (list_find _ _) as [[k org]|] eqn:Hfind.
  - apply list_find_Some in Hfind as (Hk & Hp & Hfirst).
    split_and!; [split; [lia|done]|split; [lia|by intros [_ ?]]| |].
    + intros i. split.
      * intros Hi. assert (i = k) as -> by lia. split_and!; [done..|].
        exists org. split_and!; [done..|]. intros j q Hlt Hj.
        specialize (Hfirst j q Hj Hlt). by destruct (HasPrefix importPath q).
      * intros (_ & _ & org' & Hi & Hp' & Hfirst').
        destruct (Nat.lt_trichotomy i k) as [Hlt|[->|Hlt]]; [|done|].
        -- by destruct (Hfirst i org' Hi Hlt).
        -- rewrite (Hfirst' k org Hlt Hk) in Hp. done.
    + split; [lia|]. intros (_ & _ & Hall).
      rewrite Forall_forall in Hall. apply list_elem_of_lookup_2 in Hk.
      rewrite (Hall _ Hk) in Hp. done.
  - apply list_find_None in Hfind.
    split_and!; [split; [lia|done]|split; [lia|by intros [_ ?]]| |].
    + intros i. split; [lia|]. intros (_ & _ & org & Hi & Hp & _).
      rewrite Forall_forall in Hfind. apply list_elem_of_lookup_2 in Hi.
      by destruct (Hfind _ Hi).
    + split; [|done]. intros _. split_and!; [done..|].
      eapply Forall_impl; [exact Hfind|]. intros org Hn. simpl in Hn.
      by destruct (HasPrefix importPath org).
Qed.
End classifier_more.

Lemma Contains_uptoSlash s : Contains (uptoSlash s) "/" = false.
Proof.
  induction s as [|c s IH]; [done|]. simpl uptoSlash.
  destruct (Ascii.eqb_spec c "/") as [->|Hne]; [done|].
  change (HasPrefix (String c (uptoSlash s)) "/" || Contains (uptoSlash s) "/" = false).
  rewrite HasPrefix_cons, IH, bool_decide_eq_false_2 by done. done.
Qed.

(** X2.  [getOrgInfo] answers [(-1, "")] exactly when no configured prefix is
    a prefix of the path; otherwise the index is the position of the first
    such prefix, within the configured list, and the project name is a single
    path segment: it never contains a separator. *)
Theorem getOrgInfo_index_and_name {FileSet} (g : formatter FileSet) importPath :
  (getOrgInfo g importPath = (-1, "")
   ∧ Forall (λ org, HasPrefix importPath org = false) (getOrgs g))
  ∨ (∃ i org,
       getOrgs g !! i = Some org
       ∧ HasPrefix importPath org = true
       ∧ (∀ j q, (j < i)%nat → getOrgs g !! j = Some q → HasPrefix importPath q = false)
       ∧ (getOrgInfo g importPath).1 = Z.of_nat i
       ∧ 0 ≤ (getOrgInfo g importPath).1 < Z.of_nat (length (getOrgs g))
       ∧ Contains (getOrgInfo g importPath).2 "/" = false).
Proof.
  unfold getOrgInfo.
  destruct (list_find _ _) as [[i org]|] eqn:Hfind.
  - right. apply list_find_Some in Hfind as (Hi & Hp & Hfirst).
    pose proof (lookup_lt_Some _ _ _ Hi) as Hlt.
    pose proof (Split_head (TrimPrefix (TrimPrefix importPath org) "/")) as Hhead.
    exists i, org. split_and!; [done|done| | | | |].
    + intros j q Hj Hq. specialize (Hfirst j q Hq Hj).
      by destruct (HasPrefix importPath q).
    + by destruct (Split _ _).
    + destruct (Split _ _); simpl; lia.
    + destruct (Split _ _); simpl; lia.
    + destruct (Split _ _) as [|seg segs]; [done|]. simpl in *.
      injection Hhead as ->. apply Contains_uptoSlash.
  - left. split; [done|]. apply list_find_None in Hfind.
    eapply Forall_impl; [exact Hfind|]. intros org Hn. simpl in Hn.
    by destruct (HasPrefix importPath org).
Qed.

(** ** Sorting *)

(** X3.  [sortImportsInGroup] sorts: the slice comes back rearranged into the
    order of its group (by path; by project name and then path in an
    organization group).  When the paths of the slice are pairwise distinct
    the result is the only such arrangement, so it does not depend on how
    [sort.Slice] treats ties. *)
Theorem sortImportsInGroup_sorts imports group :
  let order := if OrgGroupBase <=? group then orgLe else pathLe in
  sortImportsInGroup imports group ≡ₚ imports
  ∧ StronglySorted order (sortImportsInGroup imports group)
  ∧ (NoDup (Path <$> imports) →
     ∀ sorted, sorted ≡ₚ imports → StronglySorted order sorted →
               sorted = sortImportsInGroup imports group).
Proof.
  intros order. split_and!.
  - apply sortImportsInGroup_Permutation.
  - subst order. destruct (OrgGroupBase <=? group) eqn:Hg.
    + apply sortImportsInGroup_org. by apply Z.leb_le.
    + apply sortImportsInGroup_path. by apply Z.leb_gt.
  - intros Hnd sorted Hperm Hsorted. by apply sortImportsInGroup_unique.
Qed.

(** ** Buckets of an organization group *)

Lemma addOrgImports_keys importDecl imports :
  ∃ keys,
    addOrgImports importDecl imports
      = ast.mkGenDecl (ast.Tok importDecl) (ast.Lparen importDecl)
          (ast.Specs importDecl
           ++ specsOf (keys ≫= (λ k, filter (λ imp, orgProject imp = k) imports)))
    ∧ NoDup keys
    ∧ StronglySorted keyLe keys
    ∧ ∀ imp, imp ∈ imports → orgProject imp ∈ keys.
Proof.
  unfold addOrgImports. destruct (length imports =? 0)%nat eqn:Hlen.
  { apply Nat.eqb_eq, nil_length_inv in Hlen as ->. exists [].
    destruct importDecl. simpl. rewrite app_nil_r.
    split_and!; [done|constructor|constructor|by intros imp ?%elem_of_nil]. }
  set (projectGroups := foldl _ ∅ imports).
  set (keys := sort_Slice lessOrgProject (map_to_list projectGroups).*1).
  assert (∀ k, at_key projectGroups k = filter (λ imp, orgProject imp = k) imports) as Hat.
  { intros k. etrans; [apply (fill_at_key orgProject imports ∅ k)|].
    unfold at_key. by rewrite lookup_empty. }
  assert (keys ≡ₚ (map_to_list projectGroups).*1) as Hperm
    by apply sort_Slice_Permutation.
  exists keys. split_and!.
  - rewrite addGroupImports_buckets. do 2 f_equal. f_equal.
    clear -Hat. induction keys as [|k keys IH]; [done|].
    by rewrite !bind_cons, Hat, IH.
  - rewrite Hperm. apply NoDup_fst_map_to_list.
  - apply sort_Slice_sorted; [apply _..|]. apply lessOrgProject_keyLe.
  - intros imp Himp. rewrite Hperm. apply list_elem_of_fmap.
    assert (is_Some (projectGroups !! orgProject imp)) as [l Hl].
    { apply (fill_lookup_is_Some orgProject). right. eauto. }
    exists (orgProject imp, l). split; [done|]. by apply elem_of_map_to_list.
Qed.

Section bucket_order.
Context {K : Type} `{EqDecision K} (key : Import → K) (R : relation K).

Lemma filter_filter_other (imports : list Import) k k0 :
  k ≠ k0 →
  filter (λ imp, key imp = k0) (filter (λ imp, key imp = k) imports) = [].
Proof.
  intros Hne. induction imports as [|imp imports IHi]; [done|].
  rewrite filter_cons. destruct (decide (key imp = k)) as [Hk|?]; [|done].
  rewrite filter_cons, decide_False by congruence. done.
Qed.

Lemma buckets_filter_other (keys : list K) imports k0 :
  k0 ∉ keys →
  filter (λ imp, key imp = k0) (keys ≫= (λ k, filter (λ imp, key imp = k) imports)) = [].
Proof.
  induction keys as [|k keys IH]; [done|].
  rewrite not_elem_of_cons. intros [Hne Hnin].
  rewrite bind_cons, filter_app, IH, app_nil_r by done.
  apply filter_filter_other. congruence.
Qed.

Lemma filter_filter_same (P : Import → Prop) `{∀ x, Decision (P x)} (l : list Import) :
  filter P (filter P l) = filter P l.
Proof.
  induction l as [|x l IH]; [done|].
  rewrite filter_cons. destruct (decide (P x)); [|done].
  by rewrite filter_cons, decide_True, IH.
Qed.

(** Records of one key come out of the buckets in the order they went in. *)
Lemma buckets_stable (keys : list K) imports k0 :
  NoDup keys →
  (∀ imp, imp ∈ imports → key imp ∈ keys) →
  filter (λ imp, key imp = k0) (keys ≫= (λ k, filter (λ imp, key imp = k) imports))
    = filter (λ imp, key imp = k0) imports.
Proof.
  intros Hnd Hcover.
  assert (filter (λ imp, key imp = k0)
            (keys ≫= (λ k, filter (λ imp, key imp = k) imports))
          = if decide (k0 ∈ keys) then filter (λ imp, key imp = k0) imports else []) as ->.
  { clear Hcover. induction Hnd as [|k keys Hk Hnd IH]; [done|].
    rewrite bind_cons, filter_app.
    destruct (decide (k = k0)) as [->|Hne].
    - rewrite decide_True by by left.
      rewrite buckets_filter_other, app_nil_r by done. apply filter_filter_same.
    - rewrite IH.
      rewrite filter_filter_other by done.
      simpl. destruct (decide (k0 ∈ keys)) as [Hin|Hnin].
      + rewrite decide_True by by right. done.
      + rewrite decide_False; [done|]. intros [?|?]%elem_of_cons; done. }
  destruct (decide (k0 ∈ keys)) as [|Hnin]; [done|]. symmetry.
  induction imports as [|imp imports IH]; [done|].
  rewrite filter_cons, decide_False.
  - apply IH. intros x Hx. apply Hcover. by right.
  - intros Heq. apply Hnin. rewrite <-Heq. apply Hcover. by left.
Qed.

Lemma bucket_key_sorted (imports : list Import) k :
  Reflexive R →
  StronglySorted (λ a b, R (key a) (key b)) (filter (λ imp, key imp = k) imports).
Proof.
  intros Hrefl. induction imports as [|imp imports IHi]; [constructor|].
  rewrite filter_cons. destruct (decide (key imp = k)) as [Heq|]; [|done].
  constructor; [done|]. apply Forall_forall.
  intros y [Hy _]%list_elem_of_filter. by rewrite Heq, Hy.
Qed.

(** Buckets emitted in key order give a slice ordered by key. *)
Lemma buckets_key_sorted (keys : list K) imports :
  Reflexive R →
  StronglySorted R keys →
  StronglySorted (λ a b, R (key a) (key b))
    (keys ≫= (λ k, filter (λ imp, key imp = k) imports)).
Proof.
  intros Hrefl Hkeys. induction Hkeys as [|k keys _ IH Hk]; [constructor|].
  rewrite bind_cons. apply StronglySorted_app_2; [| |done].
  - intros x1 x2 [Hk1 _]%list_elem_of_filter Hx2.
    apply list_elem_of_bind in Hx2 as (k2 & [Hk2 _]%list_elem_of_filter & Hin2).
    rewrite Forall_forall in Hk. rewrite Hk1, Hk2. by apply Hk.
  - by apply bucket_key_sorted.
Qed.
End bucket_order.

Global Instance keyLe_refl : Reflexive keyLe.
Proof. intros [i name]. right. by split. Qed.

(** X4.  [addOrgImports], whatever slice it is given: every record is emitted
    once; the records come out ordered by organization index and then project
    name; and records that share both come out in the order they had in the
    slice. *)
Theorem addOrgImports_bucket_order importDecl imports :
  ∃ emitted,
    addOrgImports importDecl imports
      = ast.mkGenDecl (ast.Tok importDecl) (ast.Lparen importDecl)
          (ast.Specs importDecl ++ specsOf emitted)
    ∧ emitted ≡ₚ imports
    ∧ StronglySorted (λ a b, keyLe (orgProject a) (orgProject b)) emitted
    ∧ ∀ key, filter (λ imp, orgProject imp = key) emitted
             = filter (λ imp, orgProject imp = key) imports.
Proof.
  destruct (addOrgImports_keys importDecl imports) as (keys & Heq & Hnd & Hsorted & Hcover).
  exists (keys ≫= (λ k, filter (λ imp, orgProject imp = k) imports)). split_and!.
  - done.
  - by apply buckets_Permutation.
  - apply buckets_key_sorted; [apply _|done].
  - intros key. by apply buckets_stable.
Qed.

(** ** The grouped-import table, key by key *)

Section table_more.
Context (IsStandardPackage : string → bool) (TrimSpace : string → string).
Context {FileSet : Type}.
Implicit Types (g : formatter FileSet) (w : World) (imports : list Import).

Local Abbreviation assign := (assignGroup IsStandardPackage).
Local Abbreviation table := (groupImports IsStandardPackage TrimSpace).
Local Abbreviation projectModuleOf := (projectModuleOf TrimSpace).

Lemma groupImports_lookup_is_Some g w imports filePath group :
  is_Some (table g w imports filePath !! group)
  ↔ ∃ imp, imp ∈ imports
           ∧ Group (assign g (projectModuleOf g w filePath) imp) = group.
Proof.
  unfold groupImports.
  change (if String.eqb (getCurrentProject TrimSpace g w) ""
          then utils.GetProjectModule TrimSpace w filePath
          else getCurrentProject TrimSpace g w)
    with (projectModuleOf g w filePath).
  set (pm := projectModuleOf g w filePath).
  pose proof (fill_lookup_is_Some Group (assign g pm <$> imports) ∅ group) as Hfill.
  rewrite foldl_fmap in Hfill. simpl in Hfill.
  rewrite map_lookup_imap.
  split.
  - intros [l Hl]. destruct (foldl _ _ _ !! group) as [l0|] eqn:Hl0; [|done].
    destruct (proj1 Hfill ltac:(eauto)) as [Hempty|(imp' & Himp' & Hg)].
    { rewrite lookup_empty in Hempty. by destruct Hempty. }
    apply list_elem_of_fmap in Himp' as (imp & -> & Himp). eauto.
  - intros (imp & Himp & Hg).
    destruct (proj2 Hfill) as [l0 Hl0].
    { right. exists (assign g pm imp). split; [by apply list_elem_of_fmap_2|done]. }
    rewrite Hl0. simpl. eauto.
Qed.

(** X5.  The table [groupImports] returns, read at any key.  The slice stored
    there is a rearrangement of the records classified into that group, in the
    order of the group, each record carrying the group; a key is present only
    if some record was classified into it, so no stored slice is empty; the
    keys that occur are the three fixed groups and [OrgGroupBase + i] for a
    configured organization [i]; and in an organization group every record
    carries that [i] as its organization index and the project name of
    [getOrgInfo]. *)
Theorem groupImports_table g w imports filePath group :
  let projectModule := projectModuleOf g w filePath in
  let members := at_key (table g w imports filePath) group in
  members ≡ₚ filter (λ imp, Group imp = group) (assign g projectModule <$> imports)
  ∧ StronglySorted (if OrgGroupBase <=? group then orgLe else pathLe) members
  ∧ (table g w imports filePath !! group = None ↔ members = [])
  ∧ (members ≠ [] →
       group = StdGroup ∨ group = ThirdPartyGroup ∨ group = ProjectGroup
       ∨ ∃ i, (i < length (getOrgs g))%nat ∧ group = OrgGroupBase + Z.of_nat i)
  ∧ Forall (λ imp,
       Group imp = group
       ∧ Group imp = classifyImport IsStandardPackage g (Path imp) projectModule
       ∧ (OrgGroupBase ≤ group →
            (OrgIndex imp, ProjectName imp) = getOrgInfo g (Path imp)
            ∧ group = OrgGroupBase + OrgIndex imp)) members.
Proof.
  intros pm members.
  assert (members ≡ₚ filter (λ imp, Group imp = group) (assign g pm <$> imports))
    as Hperm.
  { subst members. by rewrite groupImports_at_key, sortImportsInGroup_Permutation. }
  assert (∀ imp, imp ∈ members →
            ∃ imp0, imp0 ∈ imports ∧ imp = assign g pm imp0 ∧ Group imp = group) as Hmem.
  { intros imp Himp. rewrite Hperm in Himp.
    apply list_elem_of_filter in Himp as [Hg Himp].
    apply list_elem_of_fmap in Himp as (imp0 & -> & Himp0). eauto. }
  split_and!.
  - done.
  - subst members. rewrite groupImports_at_key.
    destruct (OrgGroupBase <=? group) eqn:Hg.
    + apply sortImportsInGroup_org. by apply Z.leb_le.
    + apply sortImportsInGroup_path. by apply Z.leb_gt.
  - rewrite eq_None_not_Some, groupImports_lookup_is_Some. fold pm. split.
    + intros Hnone. destruct members as [|imp members'] eqn:Hm; [done|].
      destruct (Hmem imp ltac:(by left)) as (imp0 & Himp0 & -> & Hg).
      destruct Hnone. eauto.
    + intros Hnil (imp & Himp & Hg).
      assert (assign g pm imp ∈ members) as Hin.
      { rewrite Hperm. apply list_elem_of_filter. split; [done|].
        by apply list_elem_of_fmap_2. }
      rewrite Hnil in Hin. by apply elem_of_nil in Hin.
  - intros Hne. destruct members as [|imp members'] eqn:Hm; [done|].
    destruct (Hmem imp ltac:(by left)) as (imp0 & Himp0 & -> & Hg).
    rewrite assignGroup_Group in Hg. rewrite <-Hg.
    destruct (classifyImport_range IsStandardPackage g (Path imp0) pm)
      as [->|[->|[->|(i & org & Hi & ->)]]]; [tauto..|].
    do 3 right. exists i. split; [|done]. by apply lookup_lt_Some in Hi.
  - apply Forall_forall. intros imp Himp.
    destruct (Hmem imp Himp) as (imp0 & Himp0 & -> & Hg).
    split_and!; [done| |].
    + rewrite assignGroup_Group. unfold assignGroup.
      destruct (_ <=? _); [|done]. by destruct (getOrgInfo _ _).
    + intros Horg. split.
      * assert (OrgGroupBase ≤ classifyImport IsStandardPackage g (Path imp0) pm) as Hc
          by (by rewrite <-assignGroup_Group, Hg).
        unfold assignGroup. rewrite (proj2 (Z.leb_le _ _) Hc).
        by destruct (getOrgInfo g (Path imp0)) eqn:Hinfo.
      * rewrite <-Hg. apply assignGroup_OrgIndex. by rewrite Hg.
Qed.
End table_more.

(** ** The re-emitter on any table *)

Lemma concat_Permutation_seq {A} (f : nat → list A) (ls : list (list A)) start :
  (∀ i l, ls !! i = Some l → l ≡ₚ f (start + i)%nat) →
  concat ls ≡ₚ seq start (length ls) ≫= f.
Proof.
  revert start. induction ls as [|l ls IH]; intros start Hls; [done|].
  rewrite concat_cons, length_cons, <-cons_seq, bind_cons. f_equiv.
  - rewrite (Hls 0%nat l eq_refl). by rewrite Nat.add_0_r.
  - apply IH. intros i l' Hi. rewrite (Hls (S i) l' Hi). by rewrite Nat.add_succ_r.
Qed.

Lemma specsOf_nil (emitted : list Import) : specsOf emitted = [] → emitted = [].
Proof. by destruct emitted. Qed.

Lemma nonEmpty_app {A} (x y : list A) : nonEmpty (x ++ y) = nonEmpty x || nonEmpty y.
Proof. destruct x, y; done. Qed.

Lemma nonEmpty_Permutation {A} (x y : list A) : x ≡ₚ y → nonEmpty x = nonEmpty y.
Proof. intros Hxy. unfold nonEmpty. by rewrite Hxy. Qed.

Section reemitter_more.
Context (IsStandardPackage : string → bool) (TrimSpace : string → string).
Context {FileSet : Type}.
Implicit Types (g : formatter FileSet) (w : World) (imports : list Import).

Local Abbreviation assign := (assignGroup IsStandardPackage).
Local Abbreviation table := (groupImports IsStandardPackage TrimSpace).
Local Abbreviation projectModuleOf := (projectModuleOf TrimSpace).

Lemma hasOrgImports_nonEmpty g (groupedImports : gmap Z (list Import)) :
  hasOrgImports g groupedImports
    = nonEmpty (seq 0 (length (getOrgs g))
                  ≫= (λ i, at_key groupedImports (OrgGroupBase + Z.of_nat i))).
Proof.
  unfold hasOrgImports. induction (seq 0 (length (getOrgs g))) as [|i l IH]; [done|].
  by rewrite bind_cons, nonEmpty_app, <-IH.
Qed.

Lemma replaceImports_decls g file (groupedImports : gmap Z (list Import)) :
  ∃ emitted,
    emitted ≡ₚ knownGroups g groupedImports
    ∧ ast.Decls (replaceImports g file groupedImports)
      = (if nonEmpty emitted
         then [ast.GenDeclNode (ast.mkGenDecl ast.IMPORT 1 (specsOf emitted))]
         else [])
        ++ filter (λ decl, isImportDecl decl = false) (ast.Decls file).
Proof.
  destruct (replaceImports_orgs groupedImports
              (ast.mkGenDecl ast.IMPORT 1
                 ([] ++ specsOf (at_key groupedImports StdGroup)
                  ++ specsOf (at_key groupedImports ThirdPartyGroup)))
              (length (getOrgs g)))
    as (orgs & Hfold & Hlen & Horgs).
  assert (concat orgs
          ≡ₚ seq 0 (length (getOrgs g))
               ≫= (λ i, at_key groupedImports (OrgGroupBase + Z.of_nat i))) as Hconcat.
  { rewrite <-Hlen. apply concat_Permutation_seq. intros i l Hi.
    by destruct (Horgs i l Hi) as [? _]. }
  exists (at_key groupedImports StdGroup ++ at_key groupedImports ThirdPartyGroup
          ++ concat orgs ++ at_key groupedImports ProjectGroup).
  assert (at_key groupedImports StdGroup ++ at_key groupedImports ThirdPartyGroup
          ++ concat orgs ++ at_key groupedImports ProjectGroup
          ≡ₚ knownGroups g groupedImports) as Hperm.
  { unfold knownGroups. by rewrite Hconcat. }
  split; [done|].
  rewrite (nonEmpty_Permutation _ _ Hperm). unfold knownGroups.
  rewrite !nonEmpty_app, <-hasOrgImports_nonEmpty.
  unfold replaceImports.
  replace (nonEmpty (at_key groupedImports StdGroup)
           || (nonEmpty (at_key groupedImports ThirdPartyGroup)
               || (hasOrgImports g groupedImports
                   || nonEmpty (at_key groupedImports ProjectGroup))))
    with (nonEmpty (at_key groupedImports StdGroup)
          || nonEmpty (at_key groupedImports ThirdPartyGroup)
          || nonEmpty (at_key groupedImports ProjectGroup)
          || hasOrgImports g groupedImports)
    by (repeat destruct (nonEmpty _); by destruct (hasOrgImports _ _)).
  destruct (_ || _ || _ || _); [|done].
  rewrite !addGroupImports_if. simpl. f_equal. f_equal.
  rewrite (addGroupImports_spec _ (at_key groupedImports StdGroup)).
  rewrite (addGroupImports_spec _ (at_key groupedImports ThirdPartyGroup)). simpl.
  simpl in Hfold. rewrite Hfold, addGroupImports_spec. simpl.
  by rewrite !fmap_app, <-!app_assoc.
Qed.

(** X6.  [replaceImports] on any table.  The declarations that are not import
    declarations are kept, in their order; every import declaration of the
    file is dropped; and when the slices under the keys it reads (the three
    fixed groups and one key per configured organization) hold any record,
    exactly one parenthesized import declaration is put in front, with one
    spec for each of those records.  Records under any other key of the table
    are not emitted.  The package name, the comments and the file's own list
    of import specs are left as they were. *)
Theorem replaceImports_any_table g file (groupedImports : gmap Z (list Import)) :
  ∃ emitted,
    emitted ≡ₚ knownGroups g groupedImports
    ∧ ast.Decls (replaceImports g file groupedImports)
      = (if nonEmpty emitted
         then [ast.GenDeclNode (ast.mkGenDecl ast.IMPORT 1 (specsOf emitted))]
         else [])
        ++ filter (λ decl, isImportDecl decl = false) (ast.Decls file)
    ∧ ast.Imports (replaceImports g file groupedImports) = ast.Imports file
    ∧ ast.PackageName (replaceImports g file groupedImports) = ast.PackageName file
    ∧ ast.Comments (replaceImports g file groupedImports) = ast.Comments file.
Proof.
  destruct (replaceImports_decls g file groupedImports) as (emitted & Hperm & Hdecls).
  exists emitted. split_and!; [done|done|..];
    unfold replaceImports; by destruct (_ || _ || _ || _).
Qed.

Lemma knownGroups_keys g (groupedImports : gmap Z (list Import)) :
  knownGroups g groupedImports
  = ([StdGroup; ThirdPartyGroup]
     ++ ((λ i, OrgGroupBase + Z.of_nat i) <$> seq 0 (length (getOrgs g)))
     ++ [ProjectGroup]) ≫= at_key groupedImports.
Proof.
  unfold knownGroups. rewrite !bind_app, !bind_cons.
  change (@nil Z ≫= at_key groupedImports) with (@nil Import).
  rewrite !app_nil_r, <-!app_assoc. do 2 f_equal. f_equal.
  induction (seq 0 (length (getOrgs g))) as [|i l IH]; [done|].
  by rewrite fmap_cons, !bind_cons, IH.
Qed.

Lemma knownGroups_NoDup n :
  NoDup ([StdGroup; ThirdPartyGroup]
         ++ ((λ i, OrgGroupBase + Z.of_nat i) <$> seq 0 n) ++ [ProjectGroup]).
Proof.
  assert (∀ k, k < OrgGroupBase →
            k ∉ (λ i, OrgGroupBase + Z.of_nat i) <$> seq 0 n) as Hout.
  { intros k Hk (i & -> & _)%list_elem_of_fmap. lia. }
  unfold StdGroup, ThirdPartyGroup, ProjectGroup in *.
  apply NoDup_cons. split.
  { rewrite elem_of_cons, elem_of_app, list_elem_of_singleton.
    intros [?|[Hin|?]]; [done| |done]. revert Hin. apply Hout. by unfold OrgGroupBase. }
  apply NoDup_cons. split.
  { rewrite elem_of_app, list_elem_of_singleton.
    intros [Hin|?]; [|done]. revert Hin. apply Hout. by unfold OrgGroupBase. }
  apply NoDup_app. split_and!.
  - apply NoDup_fmap_2; [|apply NoDup_seq]. intros i j Hij. lia.
  - intros k Hk ->%list_elem_of_singleton. revert Hk. apply Hout. by unfold OrgGroupBase.
  - apply NoDup_singleton.
Qed.

(** X7.  The re-emitter loses nothing and invents nothing: from the table of a
    non-empty import list it synthesizes one declaration whose specs are, up
    to order, exactly the specs of the classified records, one for each record
    of the list. *)
Theorem replaceImports_emits_every_import g w imports filePath file :
  imports ≠ [] →
  ∃ emitted,
    ast.Decls (replaceImports g file (table g w imports filePath))
      = ast.GenDeclNode (ast.mkGenDecl ast.IMPORT 1 (specsOf emitted))
        :: filter (λ decl, isImportDecl decl = false) (ast.Decls file)
    ∧ emitted ≡ₚ assign g (projectModuleOf g w filePath) <$> imports
    ∧ length emitted = length imports.
Proof.
  intros Hne.
  destruct (replaceImports_decls g file (table g w imports filePath))
    as (emitted & Hperm & Hdecls).
  assert (emitted ≡ₚ assign g (projectModuleOf g w filePath) <$> imports) as Hall.
  { rewrite Hperm, knownGroups_keys.
    set (keys := _ ++ _ ++ _).
    set (cls := assign g (projectModuleOf g w filePath) <$> imports).
    trans (keys ≫= (λ k, filter (λ imp, Group imp = k) cls)).
    - clear. induction keys as [|k keys IH]; [done|].
      rewrite !bind_cons, IH. f_equiv.
      by rewrite groupImports_at_key, sortImportsInGroup_Permutation.
    - apply buckets_Permutation; [apply knownGroups_NoDup|].
      intros imp (imp0 & -> & _)%list_elem_of_fmap. rewrite assignGroup_Group.
      subst keys.
      destruct (classifyImport_range IsStandardPackage g (Path imp0)
                  (projectModuleOf g w filePath))
        as [->|[->|[->|(i & org & Hi & ->)]]].
      + by left.
      + right. by left.
      + do 2 right. apply elem_of_app. right. by apply list_elem_of_singleton.
      + do 2 right. apply elem_of_app. left.
        apply (list_elem_of_fmap_2 (λ i, OrgGroupBase + Z.of_nat i)).
        apply elem_of_seq. apply lookup_lt_Some in Hi. lia. }
  exists emitted. split_and!; [|done|by rewrite Hall, length_fmap].
  rewrite Hdecls. destruct emitted as [|imp emitted]; [|done].
  symmetry in Hall. apply Permutation_nil_r in Hall.
  by destruct imports.
Qed.
End reemitter_more.

Lemma replaceImports_emits_every_import_witness :
  let g := Sample.G ["github.com/myorg"] "github.com/test/project" false in
  let w := Sample.emptyWorld in
  let imports :=
    [Sample.imp "github.com/external/lib"; Sample.imp "fmt";
     Sample.imp "github.com/test/project/internal"; Sample.imp "strings";
     Sample.imp "github.com/myorg/project1"] in
  imports ≠ []
  ∧ ∃ emitted,
      ast.Decls (replaceImports g Sample.mainFile
                   (groupImports Sample.IsStandardPackage Sample.TrimSpace g w
                      imports "main.go"))
        = ast.GenDeclNode (ast.mkGenDecl ast.IMPORT 1 (specsOf emitted))
          :: filter (λ decl, isImportDecl decl = false) (ast.Decls Sample.mainFile)
      ∧ emitted ≡ₚ assignGroup Sample.IsStandardPackage g
                     (projectModuleOf Sample.TrimSpace g w "main.go") <$> imports
      ∧ length emitted = length imports.
Proof.
  intros g w imports.
  assert (imports ≠ []) as Hne by discriminate.
  split; [exact Hne|].
  exact (replaceImports_emits_every_import Sample.IsStandardPackage Sample.TrimSpace
           g w imports "main.go" Sample.mainFile Hne).
Defined.

(** ** Reading back what the re-emitter wrote *)

Section roundtrip.
Context (CommentGroup_Text : ast.CommentGroup → string).

Lemma firstOccurrences_importSpecOf seen imports :
  NoDup (Path <$> imports) →
  Forall (λ imp, Trim (Path imp) dquote = Path imp ∧ Path imp ∉ seen) imports →
  firstOccurrences CommentGroup_Text seen (importSpecOf <$> imports)
    = (λ imp, importOfSpec CommentGroup_Text (Path imp) (importSpecOf imp)) <$> imports.
Proof.
  revert seen. induction imports as [|imp imports IH]; intros seen Hnd Himports; [done|].
  rewrite fmap_cons in Hnd. apply NoDup_cons in Hnd as [Hnotin Hnd].
  apply Forall_cons in Himports as [[Htrim Hseen] Himports].
  rewrite !fmap_cons. simpl. unfold specPath. simpl.
  rewrite (Trim_importSpecOf_path imp Htrim).
  rewrite bool_decide_eq_false_2 by done.
  f_equal. apply IH; [done|].
  apply Forall_forall. intros imp' Himp'.
  rewrite Forall_forall in Himports. destruct (Himports _ Himp') as [Htrim' Hseen'].
  split; [done|]. intros [Heq|?]%elem_of_cons; [|done].
  apply Hnotin. rewrite <-Heq. by apply list_elem_of_fmap_2.
Qed.

(** X8.  The specs [addGroupImports] writes read back through
    [extractImports]: from records with pairwise distinct paths that carry no
    quote at either end, the specs made of them are extracted as one record
    each, in the same order, with the same path and the same alias.  The
    comment comes back through the comment group's text, and the
    classification fields come back at their zero values. *)
Theorem extractImports_of_emitted_specs imports name decls comments :
  NoDup (Path <$> imports) →
  Forall (λ imp, Trim (Path imp) dquote = Path imp) imports →
  extractImports CommentGroup_Text
    (ast.mkFile name decls (importSpecOf <$> imports) comments)
  = Some ((λ imp,
             {| Name := Name imp; Path := Path imp;
                Comment := if String.eqb (Comment imp) "" then ""
                           else CommentGroup_Text (ast.mkCommentGroup [Comment imp]);
                Group := 0; OrgIndex := 0; ProjectName := "" |}) <$> imports).
Proof.
  intros Hnd Htrim. rewrite extractImports_firsts.
  - simpl. rewrite firstOccurrences_importSpecOf; [|done|].
    + f_equal. apply list_fmap_ext. intros _ imp _.
      unfold importOfSpec, importSpecOf. simpl.
      destruct (String.eqb (Name imp) "") eqn:Hname;
        destruct (String.eqb (Comment imp) ""); simpl; try done;
        apply String.eqb_eq in Hname; by rewrite Hname.
    + eapply Forall_impl; [exact Htrim|]. intros imp Himp. simpl.
      split; [done|apply not_elem_of_nil].
  - simpl. apply Forall_forall. intros spec (imp & -> & _)%list_elem_of_fmap.
    by eexists.
Qed.
End roundtrip.

Lemma extractImports_of_emitted_specs_witness :
  let imports :=
    [mkImport "" "fmt" "" 0 0 "";
     mkImport "lib" "github.com/external/lib" "// used by main" 1 0 "";
     mkImport "" "github.com/myorg/project1" "" 100 0 "project1"] in
  NoDup (Path <$> imports)
  ∧ Forall (λ imp, Trim (Path imp) dquote = Path imp) imports
  ∧ extractImports Sample.CommentGroup_Text
      (ast.mkFile "main" [] (importSpecOf <$> imports) [])
    = Some [mkImport "" "fmt" "" 0 0 "";
            mkImport "lib" "github.com/external/lib"
              (Sample.CommentGroup_Text (ast.mkCommentGroup ["// used by main"])) 0 0 "";
            mkImport "" "github.com/myorg/project1" "" 0 0 ""].
Proof.
  intros imports.
  assert (NoDup (Path <$> imports)) as Hnd
    by (apply (bool_decide_unpack _); by vm_compute).
  assert (Forall (λ imp, Trim (Path imp) dquote = Path imp) imports) as Htrim
    by (repeat constructor).
  split_and!; [exact Hnd|exact Htrim|].
  exact (extractImports_of_emitted_specs Sample.CommentGroup_Text imports "main" [] []
           Hnd Htrim).
Defined.

(** ** The text the formatter writes *)

Lemma Join_Split s sep : Join (Split s sep) (String sep EmptyString) = s.
Proof.
  unfold Join. induction s as [|c s IH]; [done|]. simpl.
  destruct (Split_cons s sep) as (seg & segs & Hsplit). rewrite Hsplit in IH |- *.
  destruct (Ascii.eqb_spec c sep) as [->|Hne].
  - change (String.concat (String sep "") ("" :: seg :: segs))
      with (String sep (String.concat (String sep "") (seg :: segs))).
    by rewrite IH.
  - rewrite <-IH. by destruct segs.
Qed.

Section text_more.
Context (IsStandardPackage : string → bool).
Context (CommentGroup_Text : ast.CommentGroup → string) (TrimSpace : string → string).
Context {FileSet : Type}.
Context (format_Node : FileSet → ast.File → string + error).
Implicit Types (g : formatter FileSet) (w : World) (lines : list string).

Local Abbreviation spliced :=
  (splicedLines IsStandardPackage CommentGroup_Text TrimSpace).
Local Abbreviation specLines :=
  (importSpecLines IsStandardPackage CommentGroup_Text TrimSpace).
Local Abbreviation formatSpec := (formatImportSpec CommentGroup_Text TrimSpace).

(** X9.  [formatFile], from the printer's point of view.  The printer is
    handed the file without its import declarations and without its import
    specs; its error is returned as it is.  Otherwise the output is the
    printer's text, line for line and in order, with one insertion right below
    the first line that starts with the package keyword: a blank line and,
    when the last import declaration of the file has specs, the import block
    and another blank line.  When no line starts with the package keyword the
    printer's text is returned unchanged and no import is written. *)
Theorem formatFile_output g w file :
  let stripped :=
    ast.mkFile (ast.PackageName file)
      (filter (λ decl, isImportDecl decl = false) (ast.Decls file))
      [] (ast.Comments file) in
  formatFile IsStandardPackage CommentGroup_Text TrimSpace format_Node g w file
  = match format_Node (fileSet g) stripped with
    | inr err => inr err
    | inl buf =>
        let lines := Split buf "010" in
        match list_find (λ line, HasPrefix (TrimSpace line) "package " = true) lines with
        | Some (i, _) =>
            inl (Join (take (S i) lines
                       ++ spliced g w (lastImportDecl (ast.Decls file))
                       ++ drop (S i) lines) nl)
        | None => inl buf
        end
    end.
Proof.
  intros stripped. unfold formatFile. fold stripped.
  destruct (format_Node (fileSet g) stripped) as [buf|err]; [|done].
  simpl.
  pose proof (formatFile_lines_frame IsStandardPackage CommentGroup_Text TrimSpace
                g w (lastImportDecl (ast.Decls file)) (Split buf "010")) as Hframe.
  destruct (list_find _ _) as [[i l]|]; rewrite Hframe; [done|].
  f_equal. apply Join_Split.
Qed.

Lemma importSpecLines_nonblank g w specs0 specs (h : nat → nat) :
  filter (λ line, line ≠ "") (concat (imap (λ i, specLines g w specs0 (h i)) specs))
  = specs ≫= (λ spec,
      match spec with
      | ast.ImportSpecNode importSpec => [String "009"%char (formatSpec importSpec)]
      | _ => []
      end).
Proof.
  revert h. induction specs as [|spec specs IH]; intros h; [done|].
  rewrite imap_cons, concat_cons, filter_app, bind_cons.
  rewrite <-(IH (h ∘ S)). f_equal.
  destruct spec as [importSpec| |]; [|done..]. unfold importSpecLines.
  destruct (_ && _); simpl; rewrite ?filter_cons; repeat case_decide; done.
Qed.

(** X10.  The import block, blank lines aside: the opening line, one
    tab-indented line for each import spec of the declaration, in the order of
    the specs, and the closing parenthesis.  Specs of another kind contribute
    no line, and spacing adds nothing but empty lines. *)
Theorem importBlockLines_entries g w specs :
  filter (λ line, line ≠ "")
         (importBlockLines IsStandardPackage CommentGroup_Text TrimSpace g w specs)
  = ["import ("]
    ++ (specs ≫= (λ spec,
          match spec with
          | ast.ImportSpecNode importSpec =>
              [String "009"%char (formatImportSpec CommentGroup_Text TrimSpace importSpec)]
          | _ => []
          end))
    ++ [")"].
Proof.
  unfold importBlockLines. rewrite !filter_app.
  change (filter (λ line, line ≠ "") ["import ("]) with ["import ("].
  change (filter (λ line, line ≠ "") [")"]) with [")"].
  apply (f_equal (λ x, ["import ("] ++ x ++ [")"])).
  exact (importSpecLines_nonblank g w specs specs id).
Qed.
End text_more.

(** ** The preview and the file show the same block *)

Lemma filter_import_nonimport (decls : list ast.Decl) :
  filter (λ decl, isImportDecl decl = true)
         (filter (λ decl, isImportDecl decl = false) decls) = [].
Proof.
  induction decls as [|decl decls IH]; [done|].
  rewrite filter_cons. destruct (decide (isImportDecl decl = false)) as [Hd|]; [|done].
  rewrite filter_cons, decide_False; [done|]. by rewrite Hd.
Qed.

Lemma lastImportDecl_nonimport (decls : list ast.Decl) (before : list ast.Decl) :
  lastImportDecl (before ++ filter (λ decl, isImportDecl decl = false) decls)
  = lastImportDecl before.
Proof.
  unfold lastImportDecl. rewrite foldl_app.
  generalize (foldl
    (λ importDecl decl,
       match decl with
       | ast.GenDeclNode genDecl =>
           match ast.Tok genDecl with
           | ast.IMPORT => Some genDecl
           | _ => importDecl
           end
       | _ => importDecl
       end) None before).
  induction decls as [|decl decls IH]; intros acc; [done|].
  rewrite filter_cons. destruct (decide (isImportDecl decl = false)) as [Hd|]; [|done].
  simpl. rewrite IH.
  destruct decl as [genDecl| |]; [|done..]. simpl in Hd. by destruct (ast.Tok genDecl).
Qed.

Section preview.
Context (IsStandardPackage : string → bool).
Context (CommentGroup_Text : ast.CommentGroup → string) (TrimSpace : string → string).
Context {FileSet : Type}.
Implicit Types (g : formatter FileSet) (w : World).

Local Abbreviation spliced :=
  (splicedLines IsStandardPackage CommentGroup_Text TrimSpace).
Local Abbreviation blockLines :=
  (importBlockLines IsStandardPackage CommentGroup_Text TrimSpace).

End preview.

(** ** What the driver touches *)

Section driver_more.
Context (IsStandardPackage : string → bool).
Context (CommentGroup_Text : ast.CommentGroup → string) (TrimSpace : string → string).
Context {FileSet : Type}.
Context (parser_ParseFile : FileSet → string → string → FileSet * (ast.File + error)).
Context (format_Node : FileSet → ast.File → string + error).
Implicit Types (g : formatter FileSet) (w : World).

Local Abbreviation processFile :=
  (ProcessFileWithOutput IsStandardPackage CommentGroup_Text TrimSpace
     parser_ParseFile format_Node).
Local Abbreviation processFiles :=
  (ProcessFiles IsStandardPackage CommentGroup_Text TrimSpace
     parser_ParseFile format_Node).
Local Abbreviation run :=
  (batchRun IsStandardPackage CommentGroup_Text TrimSpace
     parser_ParseFile format_Node).

Lemma ProcessFileWithOutput_effects g verbose w g' w' outcome :
  processFile g verbose w = Some (g', w', outcome) →
  config g' = config g
  ∧ unwritable w' = unwritable w
  ∧ cwd w' = cwd w
  ∧ (∃ printed, stdout w' = stdout w +:+ printed)
  ∧ (files w' = files w
     ∨ (getInPlace g = true ∧ outcome = None
        ∧ (getFilePath g ∉ unwritable w)
        ∧ is_Some (files w !! getFilePath g)
        ∧ ∃ output, files w' = <[getFilePath g := output]> (files w)))
  ∧ (∀ err, outcome = Some err →
       (∃ cause, err = wrap errors.ErrMsgFailedToReadFile cause
                 ∧ files w !! getFilePath g = None)
       ∨ (∃ cause, err = wrap errors.ErrMsgFailedToParseFile cause)
       ∨ (∃ cause, err = wrap errors.ErrMsgFailedToFormatFile cause)
       ∨ (getInPlace g = true ∧ getFilePath g ∈ unwritable w
          ∧ ∃ output, (os_WriteFile w (getFilePath g) output).2 = Some err)).
Proof.
  unfold ProcessFileWithOutput.
  set (w0 := if verbose then fmt_Print w _ else w).
  assert (files w0 = files w ∧ unwritable w0 = unwritable w ∧ cwd w0 = cwd w
          ∧ ∃ printed, stdout w0 = stdout w +:+ printed) as (Hf0 & Hu0 & Hc0 & Hs0).
  { subst w0. destruct verbose; simpl; split_and!; try done; [by eexists|].
    exists "". by rewrite app_empty_r. }
  assert (∀ s, ∃ printed, stdout (fmt_Print w0 s) = stdout w +:+ printed) as Hprint.
  { intros s. destruct Hs0 as [printed Hs0]. exists (printed +:+ s). simpl.
    by rewrite Hs0, app_assoc_string. }
  unfold os_ReadFile at 1. rewrite Hf0.
  destruct (files w !! getFilePath g) as [src|] eqn:Hsrc.
  2:{ intros [= <- <- <-]. split_and!; try done; [by left|].
      intros err [= <-]. left. by eexists. }
  destruct (parser_ParseFile _ _ _) as [fset [file|perr]].
  2:{ intros [= <- <- <-]. split_and!; try done; [by left|].
      intros err [= <-]. right; left. by eexists. }
  change (getInPlace (mkFormatter (config g) fset)) with (getInPlace g).
  change (getFilePath (mkFormatter (config g) fset)) with (getFilePath g).
  destruct (length (ast.Imports file) =? 0)%nat.
  { destruct (getInPlace g); simpl.
    - intros [= <- <- <-]. split_and!; try done. by left.
    - destruct verbose; simpl; intros [= <- <- <-];
        split_and!; try done; by left. }
  destruct (extractImports _ _) as [imports|]; [|done]. simpl.
  match goal with
  | |- context [formatFile ?a ?b ?c ?d ?e ?f ?h] =>
      destruct (formatFile a b c d e f h) as [output|ferr]
  end.
  2:{ intros [= <- <- <-]. split_and!; try done; [by left|].
      intros err [= <-]. do 2 right; left. by eexists. }
  destruct (getInPlace g) eqn:Hin.
  - unfold os_WriteFile. rewrite Hu0.
    destruct (decide (getFilePath g ∈ unwritable w)) as [Hlocked|Hfree].
    + intros [= <- <- <-]. split_and!; try done; [by left|].
      intros err [= <-]. do 3 right. split_and!; [done..|]. by exists "".
    + intros [= <- <- <-]. simpl. split_and!; try done.
      right. split_and!; try done. rewrite Hf0. by eexists.
  - destruct verbose.
    + unfold extractImportsOnly, formatImportsOnly.
      intros [= <- <- <-]. split_and!; try done. by left.
    + intros [= <- <- <-]. split_and!; try done. by left.
Qed.



Lemma batchRun_effects g w filePaths outcomes g' w' :
  run g w filePaths outcomes g' w' →
  config g'
    = mkConfig (default (getFilePath g) (last filePaths))
        (Orgs (config g)) (CurrentProject (config g)) (InPlace (config g))
  ∧ unwritable w' = unwritable w
  ∧ cwd w' = cwd w
  ∧ (∀ path, path ∉ filePaths → files w' !! path = files w !! path)
  ∧ (∀ path, is_Some (files w' !! path) ↔ is_Some (files w !! path))
  ∧ (getInPlace g = false → files w' = files w).
Proof.
  induction 1 as [g w|g w filePath rest g1 w1 outcome outcomes g2 w2 Hfile Hrest IH].
  { split_and!; try done. by destruct g as [[] ?]. }
  destruct (ProcessFileWithOutput_effects _ _ _ _ _ _ Hfile)
    as (Hconfig & Hlocked & Hcwd & _ & Hfiles & _).
  destruct IH as (IHconfig & IHlocked & IHcwd & IHother & IHdom & IHplain).
  assert (files (reportFile g1 w1 filePath outcome) = files w1
          ∧ unwritable (reportFile g1 w1 filePath outcome) = unwritable w1
          ∧ cwd (reportFile g1 w1 filePath outcome) = cwd w1) as (Hrf & Hru & Hrc).
  { unfold reportFile. destruct outcome; [done|]. by destruct (getInPlace g1). }
  unfold getInPlace, getFilePath in *. rewrite Hconfig in IHconfig, IHplain.
  simpl in *. rewrite Hrf in IHother, IHdom, IHplain.
  split_and!.
  - rewrite IHconfig, last_cons. by destruct (last rest).
  - congruence.
  - congruence.
  - intros path [Hne Hnotin]%not_elem_of_cons. rewrite IHother by done.
    destruct Hfiles as [->|(_ & _ & _ & _ & output & ->)]; [done|].
    by rewrite lookup_insert_ne.
  - intros path. rewrite IHdom.
    destruct Hfiles as [->|(_ & _ & _ & Hthere & output & ->)]; [done|].
    destruct (decide (path = filePath)) as [->|Hne].
    + rewrite lookup_insert_eq. split; [done|by eauto].
    + by rewrite lookup_insert_ne.
  - intros Hin. rewrite IHplain by done.
    destruct Hfiles as [->|(Hin' & _)]; [done|congruence].
Qed.

End driver_more.




(** ** The project module *)

Lemma Contains_slash_cons c s :
  Contains (String c s) "/" = false → c ≠ "/"%char ∧ Contains s "/" = false.
Proof.
  change (Contains (String c s) "/") with (HasPrefix (String c s) "/" || Contains s "/").
  intros [Hp Hs]%orb_false_elim. split; [|done].
  intros ->. by rewrite HasPrefix_cons, HasPrefix_empty, bool_decide_eq_true_2 in Hp.
Qed.

Lemma LastIndex_no_slash s : Contains s "/" = false → LastIndex s "/" = -1.
Proof.
  induction s as [|c s IH]; [done|].
  intros [Hc Hs]%Contains_slash_cons. simpl. rewrite (IH Hs). simpl.
  by apply Ascii.eqb_neq in Hc as ->.
Qed.

Lemma LastIndex_below dir segment :
  Contains segment "/" = false →
  LastIndex (dir +:+ "/" +:+ segment) "/" = Z.of_nat (String.length dir).
Proof.
  intros Hseg. induction dir as [|c dir IH].
  - rewrite app_empty_l, app_cons, app_empty_l. simpl.
    by rewrite (LastIndex_no_slash _ Hseg).
  - rewrite app_cons. simpl LastIndex. rewrite IH.
    rewrite (proj2 (Z.leb_le _ _)) by lia. simpl String.length. lia.
Qed.

Lemma substring_prefix dir rest :
  String.substring 0 (String.length dir) (dir +:+ rest) = dir.
Proof.
  induction dir as [|c dir IH].
  - rewrite app_empty_l. by destruct rest.
  - rewrite app_cons. simpl. by rewrite IH.
Qed.

Lemma length_app_string s t :
  String.length (s +:+ t) = (String.length s + String.length t)%nat.
Proof.
  induction s as [|c s IH]; [by rewrite app_empty_l|].
  rewrite app_cons. simpl. by rewrite IH.
Qed.

Lemma HasPrefix_app_short a b p :
  HasPrefix (a +:+ b) p = true → (String.length p ≤ String.length a)%nat →
  HasPrefix a p = true.
Proof.
  revert a. induction p as [|x p IH]; intros a; [intros; apply HasPrefix_empty|].
  destruct a as [|y a]; [simpl; lia|].
  rewrite app_cons, !HasPrefix_cons, !andb_true_iff. simpl.
  intros [? Hp] Hlen. split; [done|]. apply IH; [done|lia].
Qed.

Lemma Contains_cons c s sep :
  Contains (String c s) sep = HasPrefix (String c s) sep || Contains s sep.
Proof. done. Qed.

Lemma Contains_middle a sep b : Contains (a +:+ sep +:+ b) sep = true.
Proof.
  induction a as [|c a IH].
  - rewrite app_empty_l.
    assert (HasPrefix (sep +:+ b) sep = true) as Hp by (apply HasPrefix_spec; eauto).
    destruct (sep +:+ b) as [|c t];
      [change (Contains "" sep) with (HasPrefix "" sep || false)|rewrite Contains_cons];
      by rewrite Hp.
  - by rewrite app_cons, Contains_cons, IH, orb_true_r.
Qed.

Lemma SplitSep_scan_cons fuel c s sep piece :
  SplitSep_scan (S fuel) (String c s) sep piece
  = if HasPrefix (String c s) sep
    then piece :: SplitSep_scan fuel (sliceFrom (String.length sep) (String c s)) sep ""
    else SplitSep_scan fuel s sep (piece +:+ String c "").
Proof. done. Qed.

Lemma SplitSep_scan_none s sep fuel piece :
  Contains s sep = false → (String.length s < fuel)%nat →
  SplitSep_scan fuel s sep piece = [piece +:+ s].
Proof.
  revert fuel piece. induction s as [|c s IH]; intros fuel piece Hs Hfuel.
  - destruct fuel; [simpl in Hfuel; lia|]. simpl. by rewrite app_empty_r.
  - destruct fuel; [simpl in Hfuel; lia|].
    rewrite Contains_cons in Hs. apply orb_false_elim in Hs as [Hp Hs].
    rewrite SplitSep_scan_cons, Hp, IH by (done || simpl in Hfuel; lia).
    by rewrite app_assoc_string, app_cons, app_empty_l.
Qed.

(** The scan of a path with exactly one [/src/] part. *)
Lemma SplitSep_scan_src pre rest fuel piece :
  Contains (pre +:+ "/src") "/src/" = false →
  Contains rest "/src/" = false →
  (String.length (pre +:+ "/src/" +:+ rest) < fuel)%nat →
  SplitSep_scan fuel (pre +:+ "/src/" +:+ rest) "/src/" piece = [piece +:+ pre; rest].
Proof.
  revert fuel piece. induction pre as [|c pre IH]; intros fuel piece Hpre Hrest Hfuel.
  - rewrite app_empty_l in *. rewrite app_empty_r.
    destruct fuel; [simpl in Hfuel; lia|].
    assert (HasPrefix ("/src/" +:+ rest) "/src/" = true) as Hp
      by (apply HasPrefix_spec; eauto).
    pose proof (sliceFrom_app "/src/" rest) as Hslice.
    change ("/src/" +:+ rest)
      with (String "/" (String "s" (String "r" (String "c" (String "/" rest))))) in *.
    rewrite SplitSep_scan_cons, Hp, Hslice.
    rewrite SplitSep_scan_none; [by rewrite app_empty_l|done|].
    simpl in Hfuel. lia.
  - destruct fuel; [simpl in Hfuel; lia|].
    rewrite app_cons in Hpre. rewrite Contains_cons in Hpre.
    apply orb_false_elim in Hpre as [Hp Hpre].
    assert (HasPrefix (String c (pre +:+ "/src/" +:+ rest)) "/src/" = false) as Hp'.
    { apply not_true_is_false. intros Hlong.
      assert (HasPrefix (String c (pre +:+ "/src")) "/src/" = true) as Htrue;
        [|congruence].
      apply (HasPrefix_app_short _ ("/" +:+ rest)).
      - rewrite app_cons, app_assoc_string. exact Hlong.
      - simpl. rewrite length_app_string. simpl. lia. }
    rewrite app_cons, SplitSep_scan_cons, Hp'.
    rewrite IH; [|done|done|rewrite app_cons in Hfuel; simpl in Hfuel; lia].
    by rewrite app_assoc_string, app_cons, app_empty_l.
Qed.

Section project_module.
Context (TrimSpace : string → string).

Local Abbreviation findGoMod := (utils.findGoMod TrimSpace).
Local Abbreviation GetProjectModule := (utils.GetProjectModule TrimSpace).
Local Abbreviation declaredModule := (declaredModule TrimSpace).

(** One step of the walk, from a path below a non-empty directory. *)
Lemma findGoMod_step w dir segment iterations :
  dir ≠ "" →
  Contains segment "/" = false →
  findGoMod w (dir +:+ "/" +:+ segment) (S iterations)
  = match declaredModule w dir with
    | Some module => Some module
    | None => findGoMod w dir iterations
    end.
Proof.
  intros Hdir Hseg. simpl. rewrite LastIndex_below by done.
  assert (0 < Z.of_nat (String.length dir)) as Hpos by (destruct dir; [done|simpl; lia]).
  rewrite (proj2 (Z.leb_gt _ _)) by done.
  rewrite Nat2Z.id, substring_prefix. unfold declaredModule.
  destruct (os_ReadFile w _) as [content|]; [|done].
  by destruct (utils.moduleLine _ _).
Qed.

Lemma below_snoc dir segments segment :
  below dir (segments ++ [segment]) = below dir segments +:+ "/" +:+ segment.
Proof. unfold below. by rewrite foldl_app. Qed.

Lemma below_nonempty dir segments : dir ≠ "" → below dir segments ≠ "".
Proof.
  intros Hdir. induction segments as [|segment segments IH] using rev_ind; [done|].
  rewrite below_snoc. destruct (below dir segments); [done|]. by rewrite app_cons.
Qed.

Lemma findGoMod_walk w dir segments iterations module :
  dir ≠ "" →
  Forall (λ segment, Contains segment "/" = false) segments →
  (0 < length segments ≤ iterations)%nat →
  declaredModule w dir = Some module →
  (∀ k, (0 < k < length segments)%nat →
        declaredModule w (below dir (take k segments)) = None) →
  findGoMod w (below dir segments) iterations = Some module.
Proof.
  intros Hdir. revert iterations.
  induction segments as [|segment segments IH] using rev_ind;
    intros iterations Hsegs Hlen Hdecl Hnone; [simpl in Hlen; lia|].
  apply Forall_app in Hsegs as [Hsegs [Hseg _]%Forall_cons].
  rewrite length_app in Hlen, Hnone. simpl in Hlen, Hnone.
  destruct iterations as [|iterations]; [lia|].
  rewrite below_snoc, findGoMod_step by (by try apply below_nonempty).
  destruct segments as [|first segments] using rev_ind.
  { simpl. by rewrite Hdecl. }
  clear IHsegments.
  pose proof (Hnone (length (segments ++ [first])) ltac:(rewrite length_app; simpl; lia))
    as Hmid.
  rewrite take_app_length in Hmid. rewrite Hmid.
  apply IH; [done| |done|].
  - rewrite length_app in *. simpl in *. lia.
  - intros k Hk. specialize (Hnone k ltac:(lia)).
    by rewrite take_app_le in Hnone by lia.
Qed.

Lemma findGoMod_short w dir segments iterations :
  dir ≠ "" →
  Forall (λ segment, Contains segment "/" = false) segments →
  (iterations < length segments)%nat →
  (∀ k, (0 < k < length segments)%nat →
        declaredModule w (below dir (take k segments)) = None) →
  findGoMod w (below dir segments) iterations = None.
Proof.
  intros Hdir. revert iterations.
  induction segments as [|segment segments IH] using rev_ind;
    intros iterations Hsegs Hlen Hnone; [simpl in Hlen; lia|].
  destruct iterations as [|iterations]; [done|].
  apply Forall_app in Hsegs as [Hsegs [Hseg _]%Forall_cons].
  rewrite length_app in Hlen, Hnone. simpl in Hlen, Hnone.
  rewrite below_snoc, findGoMod_step by (by try apply below_nonempty).
  pose proof (Hnone (length segments) ltac:(lia)) as Hmid.
  rewrite take_app_length in Hmid. rewrite Hmid.
  apply IH; [done|lia|].
  intros k Hk. specialize (Hnone k ltac:(lia)).
  by rewrite take_app_le in Hnone by lia.
Qed.

Lemma findGoMod_none w dir iterations :
  (∀ dir, declaredModule w dir = None) →
  findGoMod w dir iterations = None.
Proof.
  intros Hnone. revert dir. induction iterations as [|iterations IH]; intros dir; [done|].
  simpl. destruct (_ <=? 0); [done|].
  specialize (Hnone (String.substring 0 (Z.to_nat (LastIndex dir "/")) dir)).
  unfold declaredModule in Hnone.
  destruct (os_ReadFile w _) as [content|]; [|done]. by rewrite Hnone.
Qed.

Lemma GetProjectModule_unfold w filePath :
  GetProjectModule w filePath
  = match findGoMod w (absolutePath w filePath) 20 with
    | Some module => module
    | None =>
        if Contains filePath "/src/" then
          let parts := SplitSep filePath "/src/" in
          if (1 <? length parts)%nat then
            let pathParts := Split (default "" (parts !! 1%nat)) "/" in
            if (3 <=? length pathParts)%nat then Join (take 3 pathParts) "/" else ""
          else ""
        else ""
    end.
Proof. done. Qed.

(** X15.  The nearest [go.mod] decides.  When the file lies between one and
    twenty path segments below a directory whose [go.mod] declares a module,
    and no directory in between declares one, [GetProjectModule] returns that
    module, whatever the file path looks like otherwise. *)
Theorem GetProjectModule_nearest_go_mod w filePath dir segments module :
  absolutePath w filePath = below dir segments →
  dir ≠ "" →
  Forall (λ segment, Contains segment "/" = false) segments →
  (0 < length segments ≤ 20)%nat →
  declaredModule w dir = Some module →
  (∀ k, (0 < k < length segments)%nat →
        declaredModule w (below dir (take k segments)) = None) →
  GetProjectModule w filePath = module.
Proof.
  intros Hpath Hdir Hsegs Hlen Hdecl Hnone.
  rewrite GetProjectModule_unfold, Hpath.
  by rewrite (findGoMod_walk w dir segments 20 module).
Qed.

(** X16.  The walk is bounded.  A [go.mod] more than twenty segments above the
    file is never consulted: when no directory in between declares a module
    and the file path has no [/src/] part, the result is the empty string
    whatever that [go.mod] declares. *)
Theorem GetProjectModule_walk_bound w filePath dir segments :
  absolutePath w filePath = below dir segments →
  dir ≠ "" →
  Forall (λ segment, Contains segment "/" = false) segments →
  (20 < length segments)%nat →
  (∀ k, (0 < k < length segments)%nat →
        declaredModule w (below dir (take k segments)) = None) →
  Contains filePath "/src/" = false →
  GetProjectModule w filePath = "".
Proof.
  intros Hpath Hdir Hsegs Hlen Hnone Hsrc.
  rewrite GetProjectModule_unfold, Hpath.
  by rewrite (findGoMod_short w dir segments 20), Hsrc.
Qed.

(** X17.  Without a module declared in any [go.mod]: a file path without a
    [/src/] part gives the empty string; a file path with exactly one [/src/]
    part gives the first three segments of what follows it, joined by slashes,
    and the empty string when fewer than three segments follow. *)
Theorem GetProjectModule_without_go_mod w filePath :
  (∀ dir, declaredModule w dir = None) →
  (Contains filePath "/src/" = false → GetProjectModule w filePath = "")
  ∧ (∀ pre rest,
       filePath = pre +:+ "/src/" +:+ rest →
       Contains (pre +:+ "/src") "/src/" = false →
       Contains rest "/src/" = false →
       GetProjectModule w filePath
       = if (3 <=? length (Split rest "/"))%nat
         then Join (take 3 (Split rest "/")) "/" else "").
Proof.
  intros Hnone. rewrite GetProjectModule_unfold, findGoMod_none by done. split.
  - by intros ->.
  - intros pre rest -> Hpre Hrest. rewrite Contains_middle.
    unfold SplitSep. by rewrite SplitSep_scan_src by (done || lia).
Qed.
End project_module.

Lemma GetProjectModule_nearest_go_mod_witness :
  let goMod := String.concat nl ["module github.com/test/project"; ""; "go 1.21"; ""] in
  let w := mkWorld (<["/tmp/grouper_test/go.mod" := goMod]> ∅) ∅ (Some "/work") "" in
  let filePath := "/tmp/grouper_test/internal/pkg/test.go" in
  let dir := "/tmp/grouper_test" in
  let segments := ["internal"; "pkg"; "test.go"] in
  absolutePath w filePath = below dir segments
  ∧ dir ≠ ""
  ∧ Forall (λ segment, Contains segment "/" = false) segments
  ∧ (0 < length segments ≤ 20)%nat
  ∧ declaredModule Sample.TrimSpace w dir = Some "github.com/test/project"
  ∧ (∀ k, (0 < k < length segments)%nat →
          declaredModule Sample.TrimSpace w (below dir (take k segments)) = None)
  ∧ utils.GetProjectModule Sample.TrimSpace w filePath = "github.com/test/project".
Proof.
  intros goMod w filePath dir segments.
  assert (absolutePath w filePath = below dir segments) as Hpath by reflexivity.
  assert (dir ≠ "") as Hdir by discriminate.
  assert (Forall (λ segment, Contains segment "/" = false) segments) as Hsegs
    by (repeat constructor).
  assert (0 < length segments ≤ 20)%nat as Hlen by (simpl; lia).
  assert (declaredModule Sample.TrimSpace w dir = Some "github.com/test/project")
    as Hdecl by (by vm_compute).
  assert (∀ k, (0 < k < length segments)%nat →
            declaredModule Sample.TrimSpace w (below dir (take k segments)) = None)
    as Hnone.
  { intros k Hk. simpl in Hk.
    destruct k as [|[|[|k]]]; [lia|by vm_compute|by vm_compute|lia]. }
  refine (conj Hpath (conj Hdir (conj Hsegs (conj Hlen (conj Hdecl (conj Hnone _)))))).
  exact (GetProjectModule_nearest_go_mod Sample.TrimSpace w filePath dir segments
           "github.com/test/project" Hpath Hdir Hsegs Hlen Hdecl Hnone).
Defined.

Lemma GetProjectModule_walk_bound_witness :
  let w := mkWorld (<["/r/go.mod" := "module example.com/far"]> ∅) ∅ (Some "/work") "" in
  let dir := "/r" in
  let segments := replicate 20 "d" ++ ["main.go"] in
  let filePath := below dir segments in
  absolutePath w filePath = below dir segments
  ∧ dir ≠ ""
  ∧ Forall (λ segment, Contains segment "/" = false) segments
  ∧ (20 < length segments)%nat
  ∧ (∀ k, (0 < k < length segments)%nat →
          declaredModule Sample.TrimSpace w (below dir (take k segments)) = None)
  ∧ Contains filePath "/src/" = false
  ∧ declaredModule Sample.TrimSpace w dir = Some "example.com/far"
  ∧ utils.GetProjectModule Sample.TrimSpace w filePath = "".
Proof.
  intros w dir segments filePath.
  assert (absolutePath w filePath = below dir segments) as Hpath by reflexivity.
  assert (dir ≠ "") as Hdir by discriminate.
  assert (Forall (λ segment, Contains segment "/" = false) segments) as Hsegs
    by (repeat constructor).
  assert (20 < length segments)%nat as Hlen by (simpl; lia).
  assert (∀ k, (0 < k < length segments)%nat →
            declaredModule Sample.TrimSpace w (below dir (take k segments)) = None)
    as Hnone.
  { intros k Hk. simpl in Hk.
    do 21 (destruct k as [|k]; [first [lia|by vm_compute]|]). lia. }
  assert (Contains filePath "/src/" = false) as Hsrc by (by vm_compute).
  split_and!;
    [exact Hpath|exact Hdir|exact Hsegs|exact Hlen|exact Hnone|exact Hsrc
    |by vm_compute|].
  exact (GetProjectModule_walk_bound Sample.TrimSpace w filePath dir segments
           Hpath Hdir Hsegs Hlen Hnone Hsrc).
Defined.

Lemma GetProjectModule_without_go_mod_witness :
  let w := Sample.emptyWorld in
  (∀ dir, declaredModule Sample.TrimSpace w dir = None)
  ∧ utils.GetProjectModule Sample.TrimSpace w "/non/existent/path/file.go" = ""
  ∧ utils.GetProjectModule Sample.TrimSpace w
      "/some/path/src/github.com/user/project/internal/file.go"
    = "github.com/user/project"
  ∧ utils.GetProjectModule Sample.TrimSpace w "/go/src/github.com/user" = "".
Proof.
  intros w.
  assert (∀ dir, declaredModule Sample.TrimSpace w dir = None) as Hnone by done.
  split; [exact Hnone|]. split; [|split].
  - exact (proj1 (GetProjectModule_without_go_mod Sample.TrimSpace w
                    "/non/existent/path/file.go" Hnone) eq_refl).
  - exact (proj2 (GetProjectModule_without_go_mod Sample.TrimSpace w
                    "/some/path/src/github.com/user/project/internal/file.go" Hnone)
             "/some/path" "github.com/user/project/internal/file.go"
             eq_refl eq_refl eq_refl).
  - exact (proj2 (GetProjectModule_without_go_mod Sample.TrimSpace w
                    "/go/src/github.com/user" Hnone)
             "/go" "github.com/user" eq_refl eq_refl eq_refl).
Defined.

(** ** Extraction, at the edges *)

Section extractor_more.
Context (CommentGroup_Text : ast.CommentGroup → string).

Lemma extractImports_loop_None specs (seen : gmap string bool) imports :
  extractImports_loop CommentGroup_Text specs seen imports = None
  ↔ Exists (λ importSpec, ast.Path importSpec = None) specs.
Proof.
  revert seen imports. induction specs as [|importSpec specs IH]; intros seen imports.
  { simpl. split; [done|]. by intros ?%Exists_nil. }
  rewrite Exists_cons. simpl.
  destruct (ast.Path importSpec) as [value|]; simpl; [|by split; auto].
  destruct (default false (seen !! Trim value dquote)); rewrite IH;
    (split; [by right|by intros [?|?]]).
Qed.

Lemma extractImports_loop_records specs (seen : gmap string bool) imports result :
  extractImports_loop CommentGroup_Text specs seen imports = Some result →
  ∃ added,
    result = imports ++ added
    ∧ (length added ≤ length specs)%nat
    ∧ Forall (λ imp, Trim (Path imp) dquote = Path imp ∧ Group imp = 0
                     ∧ OrgIndex imp = 0 ∧ ProjectName imp = "") added.
Proof.
  revert seen imports. induction specs as [|importSpec specs IH]; intros seen imports.
  { simpl. intros [= <-]. exists []. by rewrite app_nil_r. }
  simpl. destruct (ast.Path importSpec) as [value|]; simpl; [|done].
  destruct (default false (seen !! Trim value dquote)).
  - intros (added & -> & Hlen & Hadded)%IH. exists added. split_and!; [done|lia|done].
  - intros (added & -> & Hlen & Hadded)%IH.
    exists (importOfSpec CommentGroup_Text (Trim value dquote) importSpec :: added).
    split_and!; [by rewrite <-app_assoc|simpl; lia|].
    constructor; [|done]. simpl. split_and!; [apply Trim_idemp|done..].
Qed.

(** X18.  [extractImports] at the edges.  It fails, with the nil dereference
    of [importSpec.Path], exactly when some import spec of the file has no
    path literal, wherever in the list it stands and whether or not its path
    would have been a repetition.  Otherwise it returns at most one record per
    spec; no record's path has a quote at either end; and the classification
    fields of every record are still at their zero values. *)
Theorem extractImports_edges (file : ast.File) :
  (extractImports CommentGroup_Text file = None
   ↔ Exists (λ importSpec, ast.Path importSpec = None) (ast.Imports file))
  ∧ (ast.Imports file = [] → extractImports CommentGroup_Text file = Some [])
  ∧ ∀ imports,
      extractImports CommentGroup_Text file = Some imports →
      (length imports ≤ length (ast.Imports file))%nat
      ∧ Forall (λ imp, Trim (Path imp) dquote = Path imp ∧ Group imp = 0
                       ∧ OrgIndex imp = 0 ∧ ProjectName imp = "") imports.
Proof.
  unfold extractImports. split_and!.
  - apply extractImports_loop_None.
  - by intros ->.
  - intros imports (added & -> & Hlen & Hadded)%extractImports_loop_records.
    by rewrite app_nil_l.
Qed.
End extractor_more.

(** ** Go source files by name *)

Lemma sliceFrom_split n s : ∃ p, s = p +:+ sliceFrom n s.
Proof.
  revert s. induction n as [|n IH]; intros s; [by exists ""|].
  destruct s as [|c s]; [by exists ""|].
  destruct (IH s) as [p Hp]. exists (String c p). simpl. by rewrite app_cons, <-Hp.
Qed.

Lemma HasSuffix_spec s suffix : HasSuffix s suffix = true ↔ ∃ p, s = p +:+ suffix.
Proof.
  unfold HasSuffix. rewrite andb_true_iff, Nat.leb_le, String.eqb_eq. split.
  - intros [_ Hslice].
    destruct (sliceFrom_split (String.length s - String.length suffix) s) as [p Hp].
    exists p. by rewrite <-Hslice.
  - intros [p ->]. rewrite length_app_string. split; [lia|].
    replace (String.length p + String.length suffix - String.length suffix)%nat
      with (String.length p) by lia.
    apply sliceFrom_app.
Qed.

(** X19.  [IsGoFile] goes by the last three bytes of the name alone: exactly
    the names that end in [.go] are accepted, so test files and the bare name
    [.go] are Go files, a name that only contains [.go] is not, and neither is
    a name shorter than three bytes. *)
Theorem IsGoFile_by_suffix filename :
  (utils.IsGoFile filename = true ↔ ∃ stem, filename = stem +:+ ".go")
  ∧ (∀ stem, utils.IsGoFile (stem +:+ "_test.go") = true)
  ∧ utils.IsGoFile ".go" = true
  ∧ (∀ stem, utils.IsGoFile (stem +:+ ".go.txt") = false)
  ∧ ((String.length filename < 3)%nat → utils.IsGoFile filename = false).
Proof.
  unfold utils.IsGoFile. split_and!.
  - apply HasSuffix_spec.
  - intros stem. apply HasSuffix_spec. exists (stem +:+ "_test").
    by rewrite app_assoc_string.
  - done.
  - intros stem. apply not_true_is_false. intros [p Hp]%HasSuffix_spec.
    assert (String.length (stem +:+ ".go.txt") = String.length (p +:+ ".go")) as Hlen
      by by rewrite Hp.
    rewrite !length_app_string in Hlen. simpl in Hlen.
    assert (String.length p = String.length (stem +:+ ".go.")) as Hlen'
      by (rewrite length_app_string; simpl; lia).
    assert (sliceFrom (String.length p) (stem +:+ ".go.txt") = ".go") as Hs
      by (rewrite Hp; apply sliceFrom_app).
    rewrite Hlen' in Hs.
    change (stem +:+ ".go.txt") with (stem +:+ ".go." +:+ "txt") in Hs.
    rewrite <-app_assoc_string, sliceFrom_app in Hs. done.
  - intros Hshort. apply not_true_is_false. intros [p Hp]%HasSuffix_spec.
    rewrite Hp, length_app_string in Hshort. simpl in Hshort. lia.
Qed.

Example test_IsGoFile :
  utils.IsGoFile <$> ["main.go"; "cmd/root.go"; "main_test.go"; "pkg/utils/files_test.go";
                      "README.md"; "file.go.txt"; ""; ".go"; ".hidden.go";
                      "benchmark_test.go"]
  = [true; true; true; true; false; false; false; true; true; true].
Proof. by vm_compute. Qed.

(** ** What the driver prints *)

Section driver_output.
Context (IsStandardPackage : string → bool).
Context (CommentGroup_Text : ast.CommentGroup → string) (TrimSpace : string → string).
Context {FileSet : Type}.
Context (parser_ParseFile : FileSet → string → string → FileSet * (ast.File + error)).
Context (format_Node : FileSet → ast.File → string + error).
Implicit Types (g : formatter FileSet) (w : World).

Local Abbreviation processFile :=
  (ProcessFileWithOutput IsStandardPackage CommentGroup_Text TrimSpace
     parser_ParseFile format_Node).

Lemma ProcessFileWithOutput_stdout g verbose w g' w' outcome :
  processFile g verbose w = Some (g', w', outcome) →
  ∃ rest,
    stdout w' = stdout (announced TrimSpace g verbose w) +:+ rest
    ∧ (verbose = false → rest = "")
    ∧ (getInPlace g = true → rest = "")
    ∧ (is_Some outcome → rest = "").
Proof.
  unfold ProcessFileWithOutput. fold (announced TrimSpace g verbose w).
  set (w0 := announced TrimSpace g verbose w).
  assert (∀ result : option error,
            ∃ rest, stdout w0 = stdout w0 +:+ rest
                    ∧ (verbose = false → rest = "")
                    ∧ (getInPlace g = true → rest = "")
                    ∧ (is_Some result → rest = "")) as Hquiet.
  { intros result. exists "". by rewrite app_empty_r. }
  destruct (os_ReadFile w0 _) as [src|]; [|intros [= <- <- <-]; apply Hquiet].
  destruct (parser_ParseFile _ _ _) as [fset [file|perr]];
    [|intros [= <- <- <-]; apply Hquiet].
  change (getInPlace (mkFormatter (config g) fset)) with (getInPlace g) in *.
  change (getFilePath (mkFormatter (config g) fset)) with (getFilePath g) in *.
  destruct (length (ast.Imports file) =? 0)%nat.
  { destruct (getInPlace g) eqn:Hin; simpl; [intros [= <- <- <-]; apply Hquiet|].
    destruct verbose; simpl; [|intros [= <- <- <-]; apply Hquiet].
    intros [= <- <- <-]. exists src. simpl. split_and!; try done;
      by intros []%is_Some_None. }
  destruct (extractImports _ _) as [imports|]; [|done]. simpl.
  match goal with
  | |- context [formatFile ?a ?b ?c ?d ?e ?f ?h] =>
      destruct (formatFile a b c d e f h) as [output|ferr]
  end; [|intros [= <- <- <-]; apply Hquiet].
  destruct (getInPlace g) eqn:Hin.
  - unfold os_WriteFile. destruct (decide _); intros [= <- <- <-]; simpl; apply Hquiet.
  - destruct verbose; [|intros [= <- <- <-]; apply Hquiet].
    unfold extractImportsOnly, formatImportsOnly.
    intros [= <- <- <-]. eexists. simpl. split_and!; try done;
      by intros []%is_Some_None.
Qed.

End driver_output.


(** ** A configured project *)

Section configured_project.
Context (IsStandardPackage : string → bool) (TrimSpace : string → string).
Context {FileSet : Type}.
Implicit Types (g : formatter FileSet) (w : World).

(** X21.  With a project configured, the project module is the configured one:
    no [go.mod] is consulted, and neither the table [groupImports] builds nor
    the spacing decision depends on the file system, the working directory or
    the path of the file. *)
Theorem configured_project_overrides_go_mod g w w' imports filePath filePath' :
  CurrentProject (config g) ≠ "" →
  getCurrentProject TrimSpace g w = CurrentProject (config g)
  ∧ groupImports IsStandardPackage TrimSpace g w imports filePath
    = groupImports IsStandardPackage TrimSpace g w' imports filePath'
  ∧ ∀ specs i,
      shouldAddSpacingBetweenImports IsStandardPackage TrimSpace g w specs i
      = shouldAddSpacingBetweenImports IsStandardPackage TrimSpace g w' specs i.
Proof.
  intros Hproject.
  assert (∀ w0, getCurrentProject TrimSpace g w0 = CurrentProject (config g)) as Hcur.
  { intros w0. unfold getCurrentProject.
    by rewrite (proj2 (String.eqb_neq _ _) Hproject). }
  split_and!.
  - apply Hcur.
  - unfold groupImports. rewrite !Hcur.
    by rewrite (proj2 (String.eqb_neq _ _) Hproject).
  - intros specs i. unfold shouldAddSpacingBetweenImports. by rewrite !Hcur.
Qed.
End configured_project.

Lemma configured_project_overrides_go_mod_witness :
  let g := Sample.G ["github.com/myorg"] "github.com/test/project" false in
  let w := Sample.emptyWorld in
  let w' :=
    mkWorld (<["/work/go.mod" := "module github.com/other/module"]> ∅) ∅ (Some "/work") "" in
  let imports := [Sample.imp "github.com/other/module/pkg"; Sample.imp "fmt"] in
  CurrentProject (config g) ≠ ""
  ∧ getCurrentProject Sample.TrimSpace g w = CurrentProject (config g)
  ∧ groupImports Sample.IsStandardPackage Sample.TrimSpace g w imports "main.go"
    = groupImports Sample.IsStandardPackage Sample.TrimSpace g w' imports "/work/main.go"
  ∧ ∀ specs i,
      shouldAddSpacingBetweenImports Sample.IsStandardPackage Sample.TrimSpace g w specs i
      = shouldAddSpacingBetweenImports Sample.IsStandardPackage Sample.TrimSpace
          g w' specs i.
Proof.
  intros g w w' imports.
  assert (CurrentProject (config g) ≠ "") as Hproject by discriminate.
  split; [exact Hproject|].
  exact (configured_project_overrides_go_mod Sample.IsStandardPackage Sample.TrimSpace
           g w w' imports "main.go" "/work/main.go" Hproject).
Defined.

(** ** The order of the source does not matter *)

Section order_independence.
Context (IsStandardPackage : string → bool) (TrimSpace : string → string).
Context {FileSet : Type}.
Implicit Types (g : formatter FileSet) (w : World) (imports : list Import).

Local Abbreviation assign := (assignGroup IsStandardPackage).
Local Abbreviation table := (groupImports IsStandardPackage TrimSpace).
Local Abbreviation projectModuleOf := (projectModuleOf TrimSpace).

Lemma groupImports_lookup g w imports filePath group :
  table g w imports filePath !! group
  = match filter (λ imp, Group imp = group)
                 (assign g (projectModuleOf g w filePath) <$> imports) with
    | [] => None
    | members => Some (sortImportsInGroup members group)
    end.
Proof.
  pose proof (groupImports_at_key IsStandardPackage TrimSpace g w imports filePath group)
    as Hat.
  pose proof (groupImports_lookup_is_Some IsStandardPackage TrimSpace
                g w imports filePath group) as Hsome.
  set (members := filter _ _) in *.
  assert (members ≠ [] ↔ ∃ imp, imp ∈ imports
            ∧ Group (assign g (projectModuleOf g w filePath) imp) = group) as Hmem.
  { split.
    - destruct members as [|imp members'] eqn:Hm; [done|]. intros _.
      assert (imp ∈ members) as Hin by (rewrite Hm; by left).
      apply list_elem_of_filter in Hin as [Hg Hin].
      apply list_elem_of_fmap in Hin as (imp0 & -> & Hin). eauto.
    - intros (imp & Hin & Hg) Hnil.
      assert (assign g (projectModuleOf g w filePath) imp ∈ members) as Hin'.
      { apply list_elem_of_filter. split; [done|]. by apply list_elem_of_fmap_2. }
      rewrite Hnil in Hin'. by apply elem_of_nil in Hin'. }
  unfold at_key in Hat.
  destruct (table g w imports filePath !! group) as [stored|] eqn:Hstored.
  - simpl in Hat. subst stored.
    destruct members as [|imp members']; [|done].
    destruct (proj2 Hmem); [|done]. apply Hsome. eauto.
  - destruct members as [|imp members']; [done|].
    destruct (proj1 Hmem ltac:(done)) as (imp0 & Hin & Hg).
    destruct (proj2 Hsome) as [? ?]; [by eauto|done].
Qed.

Lemma assignGroup_Path g projectModule imp :
  Path (assign g projectModule imp) = Path imp.
Proof. unfold assignGroup. destruct (_ <=? _); [|done]. by destruct (getOrgInfo _ _). Qed.

Lemma assignGroup_idemp g projectModule imp :
  assign g projectModule (assign g projectModule imp) = assign g projectModule imp.
Proof.
  unfold assignGroup.
  destruct (OrgGroupBase <=? classifyImport _ g (Path imp) projectModule) eqn:Horg.
  - destruct (getOrgInfo g (Path imp)) as [orgIndex projectName] eqn:Hinfo. simpl.
    by rewrite Horg, Hinfo.
  - simpl. by rewrite Horg.
Qed.

Lemma NoDup_Path_filter (P : Import → Prop) `{∀ x, Decision (P x)} (l : list Import) :
  NoDup (Path <$> l) → NoDup (Path <$> filter P l).
Proof.
  induction l as [|imp l IH]; [done|].
  rewrite fmap_cons, NoDup_cons. intros [Hnotin Hnd].
  rewrite filter_cons. destruct (decide (P imp)); [|by apply IH].
  rewrite fmap_cons. apply NoDup_cons. split; [|by apply IH].
  intros (imp' & Heq & [_ Hin]%list_elem_of_filter)%list_elem_of_fmap.
  apply Hnotin. rewrite Heq. by apply list_elem_of_fmap_2.
Qed.

Lemma groupImports_Permutation g w imports imports' filePath :
  NoDup (Path <$> imports) →
  assign g (projectModuleOf g w filePath) <$> imports'
    ≡ₚ assign g (projectModuleOf g w filePath) <$> imports →
  table g w imports' filePath = table g w imports filePath.
Proof.
  intros Hnd Hperm. apply map_eq. intros group. rewrite !groupImports_lookup.
  set (members := filter _ (_ <$> imports)).
  set (members' := filter _ (_ <$> imports')).
  assert (members' ≡ₚ members) as Hmembers by (subst members members'; by rewrite Hperm).
  assert (NoDup (Path <$> members)) as Hnd'.
  { apply NoDup_Path_filter. rewrite <-list_fmap_compose.
    erewrite list_fmap_ext; [exact Hnd|]. intros _ imp _. simpl.
    apply assignGroup_Path. }
  destruct members as [|imp members0] eqn:Hm.
  { by apply Permutation_nil_r in Hmembers as ->. }
  destruct members' as [|imp' members0'] eqn:Hm'.
  { symmetry in Hmembers. by apply Permutation_nil_r in Hmembers. }
  f_equal. apply sortImportsInGroup_unique; [done| |].
  - by rewrite sortImportsInGroup_Permutation.
  - destruct (OrgGroupBase <=? group) eqn:Hg.
    + apply sortImportsInGroup_org. by apply Z.leb_le.
    + apply sortImportsInGroup_path. by apply Z.leb_gt.
Qed.

(** X22.  The grouping engine sees a set of imports, not a sequence.  For an
    import list with pairwise distinct paths, which is what [extractImports]
    hands on: any rearrangement of the list gives the same table, hence the
    same synthesized declaration; and grouping the classified records once
    more gives the same table again. *)
Theorem groupImports_order_independent g w imports filePath :
  NoDup (Path <$> imports) →
  (∀ imports' file,
     imports' ≡ₚ imports →
     table g w imports' filePath = table g w imports filePath
     ∧ replaceImports g file (table g w imports' filePath)
       = replaceImports g file (table g w imports filePath))
  ∧ (∀ classifiedImports,
       classifiedImports ≡ₚ assign g (projectModuleOf g w filePath) <$> imports →
       table g w classifiedImports filePath = table g w imports filePath).
Proof.
  intros Hnd. split.
  - intros imports' file Hperm.
    assert (table g w imports' filePath = table g w imports filePath) as ->; [|done].
    apply groupImports_Permutation; [done|]. by rewrite Hperm.
  - intros classifiedImports Hperm.
    apply groupImports_Permutation; [done|]. rewrite Hperm, <-list_fmap_compose.
    erewrite list_fmap_ext; [done|]. intros _ imp _. simpl. apply assignGroup_idemp.
Qed.
End order_independence.

Lemma groupImports_order_independent_witness :
  let g := Sample.G ["github.com/myorg"] "github.com/test/project" false in
  let w := Sample.emptyWorld in
  let imports :=
    [Sample.imp "github.com/external/lib"; Sample.imp "fmt";
     Sample.imp "github.com/myorg/project1"] in
  let imports' :=
    [Sample.imp "github.com/myorg/project1"; Sample.imp "github.com/external/lib";
     Sample.imp "fmt"] in
  NoDup (Path <$> imports)
  ∧ imports' ≡ₚ imports
  ∧ groupImports Sample.IsStandardPackage Sample.TrimSpace g w imports' "main.go"
    = groupImports Sample.IsStandardPackage Sample.TrimSpace g w imports "main.go".
Proof.
  intros g w imports imports'.
  assert (NoDup (Path <$> imports)) as Hnd
    by (apply (bool_decide_unpack _); by vm_compute).
  assert (imports' ≡ₚ imports) as Hperm.
  { subst imports imports'. etrans; [apply Permutation_swap|].
    apply Permutation_skip, Permutation_swap. }
  split; [exact Hnd|]. split; [exact Hperm|].
  exact (proj1 (proj1 (groupImports_order_independent Sample.IsStandardPackage
                         Sample.TrimSpace g w imports "main.go" Hnd)
                  imports' Sample.mainFile Hperm)).
Defined.
